(** * The forwarder Worker: a model of its scheduling loop, of the
      per-transaction processing step and of its shutdown protocol.

    The Go source is the [Worker] of package [defaultforwarder].  The
    sequential functions ([process], [resetConnections],
    [ScheduleConnectionReset]) are embedded as computations in a small state
    monad over the objects the worker shares with the rest of the program
    (its channels, its HTTP client, the circuit breaker).  The concurrent
    functions ([Start], [Stop], [callProcess]) are embedded as an
    interleaving transition system whose threads are the worker's loop
    goroutine, the caller of [Stop], and the goroutines that [callProcess]
    spawns.  Every call on an external collaborator is recorded in a trace. *)

From Stdlib Require Import List String ZArith Bool Arith Lia.
From Stdlib Require Import Permutation.
Import ListNotations.
Local Open Scope string_scope.
Local Open Scope list_scope.

(** ** External collaborators *)

(** [config.Component]: the worker only reads [forwarder_timeout]. *)
Record Config := { forwarder_timeout : Z }.

(** [time.Duration] is an int64 count of nanoseconds; products wrap. *)
Definition wrap64 (z : Z) : Z := ((z + 2 ^ 63) mod 2 ^ 64 - 2 ^ 63)%Z.
Definition Second : Z := 1000000000%Z.

(** [*http.Client]: the pointer identity and the one field set here. *)
Record HTTPClient := { client_id : nat; Timeout : Z }.

(** What a transaction's [Process] sees of its context when it returns:
    [Canceled] when [cancel()] was called before it returned. *)
Inductive CtxState := Live | Canceled.

(** [transaction.Transaction], an interface: the methods the worker calls.
    [txid] stands for the identity of the interface value.  [Process]
    returns [None] for a nil error. *)
Record Transaction := {
  txid : nat;
  GetTarget : string;
  GetPointCount : Z;
  Process : CtxState -> Config -> HTTPClient -> option string
}.

(** [blockedEndpoints], the circuit breaker, is declared in another file of
    the package: its three methods are taken as an interface. *)
Class Breaker (B : Type) := {
  isBlock : B -> string -> bool;
  close : B -> string -> B;
  recover : B -> string -> B
}.

(** ** Observable events *)

Inductive Level := Debug | Error.

Inductive Event :=
| EvIsBlock (target : string)             (* blockedList.isBlock(target) *)
| EvClose (target : string)               (* blockedList.close(target) *)
| EvRecover (target : string)             (* blockedList.recover(target) *)
| EvProcess (id : nat) (client : nat)     (* t.Process(ctx, config, client) is invoked *)
| EvRequeue (id : nat)                    (* t was sent on RequeueChan *)
| EvPointSent (n : Z)                     (* OnPointSuccessfullySent(n) *)
| EvCloseIdle (client : nat)              (* client.CloseIdleConnections() *)
| EvNewClient (client : nat)              (* NewHTTPClient(config) *)
| EvCancel (done : nat)                   (* cancel() of the context of one call *)
| EvLog (lvl : Level) (msg : string).

Definition dropMsg : string :=
  "dropping transaction because the retry goroutine is too busy to handle another one".
Definition tooManyMsg (target : string) : string :=
  String.append "Too many errors for endpoint '" (String.append target "': retrying later").
Definition processErrMsg (e : string) : string :=
  String.append "Error while processing transaction: " e.
Definition resetMsg : string := "Resetting worker's connections".
Definition flushMsg : string := "Flushing one new transaction before stopping Worker".
Definition stopErr : string := "Worker was requested to stop".

Arguments tooManyMsg : simpl never.
Arguments processErrMsg : simpl never.

Definition is_breaker_update (e : Event) : bool :=
  match e with EvClose _ | EvRecover _ => true | _ => false end.
Definition is_breaker_check (e : Event) : bool :=
  match e with EvIsBlock _ => true | _ => false end.
Definition is_process_call (e : Event) : bool :=
  match e with EvProcess _ _ => true | _ => false end.
Definition is_requeue (e : Event) : bool :=
  match e with EvRequeue _ => true | _ => false end.

Section WorkerModel.

Context {B : Type} {breaker : Breaker B}.

(** ** The objects shared by the worker's goroutines

    Channels are modelled by their buffered contents.  [RequeueChan] accepts
    a non-blocking send while it holds fewer than [requeueCap] items;
    [resetConnectionChan] is [make(chan struct{}, 1)] and holds a number of
    tokens. *)
Record World := {
  config : Config;
  Client : HTTPClient;
  HighPrio : list Transaction;
  LowPrio : list Transaction;
  RequeueChan : list Transaction;
  requeueCap : nat;
  resetConnectionChan : nat;
  blockedList : B;
  clients : nat;                 (* clients allocated so far *)
  trace : list Event             (* oldest first *)
}.

Definition set_Client (c : HTTPClient) (w : World) : World :=
  {| config := config w; Client := c; HighPrio := HighPrio w; LowPrio := LowPrio w;
     RequeueChan := RequeueChan w; requeueCap := requeueCap w;
     resetConnectionChan := resetConnectionChan w; blockedList := blockedList w;
     clients := clients w; trace := trace w |}.
Definition set_HighPrio (h : list Transaction) (w : World) : World :=
  {| config := config w; Client := Client w; HighPrio := h; LowPrio := LowPrio w;
     RequeueChan := RequeueChan w; requeueCap := requeueCap w;
     resetConnectionChan := resetConnectionChan w; blockedList := blockedList w;
     clients := clients w; trace := trace w |}.
Definition set_LowPrio (l : list Transaction) (w : World) : World :=
  {| config := config w; Client := Client w; HighPrio := HighPrio w; LowPrio := l;
     RequeueChan := RequeueChan w; requeueCap := requeueCap w;
     resetConnectionChan := resetConnectionChan w; blockedList := blockedList w;
     clients := clients w; trace := trace w |}.
Definition set_RequeueChan (q : list Transaction) (w : World) : World :=
  {| config := config w; Client := Client w; HighPrio := HighPrio w; LowPrio := LowPrio w;
     RequeueChan := q; requeueCap := requeueCap w;
     resetConnectionChan := resetConnectionChan w; blockedList := blockedList w;
     clients := clients w; trace := trace w |}.
Definition set_resetConnectionChan (n : nat) (w : World) : World :=
  {| config := config w; Client := Client w; HighPrio := HighPrio w; LowPrio := LowPrio w;
     RequeueChan := RequeueChan w; requeueCap := requeueCap w;
     resetConnectionChan := n; blockedList := blockedList w;
     clients := clients w; trace := trace w |}.
Definition set_blockedList (b : B) (w : World) : World :=
  {| config := config w; Client := Client w; HighPrio := HighPrio w; LowPrio := LowPrio w;
     RequeueChan := RequeueChan w; requeueCap := requeueCap w;
     resetConnectionChan := resetConnectionChan w; blockedList := b;
     clients := clients w; trace := trace w |}.
Definition set_clients (n : nat) (w : World) : World :=
  {| config := config w; Client := Client w; HighPrio := HighPrio w; LowPrio := LowPrio w;
     RequeueChan := RequeueChan w; requeueCap := requeueCap w;
     resetConnectionChan := resetConnectionChan w; blockedList := blockedList w;
     clients := n; trace := trace w |}.
Definition emit (e : Event) (w : World) : World :=
  {| config := config w; Client := Client w; HighPrio := HighPrio w; LowPrio := LowPrio w;
     RequeueChan := RequeueChan w; requeueCap := requeueCap w;
     resetConnectionChan := resetConnectionChan w; blockedList := blockedList w;
     clients := clients w; trace := trace w ++ [e] |}.

(** ** A state monad over the shared objects *)

Definition M (A : Type) : Type := World -> A * World.
Definition ret {A : Type} (a : A) : M A := fun w => (a, w).
Definition bind {A C : Type} (m : M A) (k : A -> M C) : M C :=
  fun w => let (a, w') := m w in k a w'.
Definition exec {A : Type} (m : M A) (w : World) : World := snd (m w).

Notation "x <- m ;; k" := (bind m (fun x => k))
  (at level 61, m at next level, right associativity).
Notation "m ;;; k" := (bind m (fun _ => k))
  (at level 61, right associativity).

Definition tell (e : Event) : M unit := fun w => (tt, emit e w).
Definition Errorf (msg : string) : M unit := tell (EvLog Error msg).
Definition Debugf (msg : string) : M unit := tell (EvLog Debug msg).

(** A buffered channel accepts a send without blocking while it holds
    fewer items than its capacity. *)
Definition has_room {A : Type} (buffered : list A) (capacity : nat) : bool :=
  Nat.ltb (List.length buffered) capacity.

(** [select { case w.RequeueChan <- t: ; default: }] *)
Definition trySend_RequeueChan (t : Transaction) : M bool := fun w =>
  if has_room (RequeueChan w) (requeueCap w)
  then (true, emit (EvRequeue (txid t)) (set_RequeueChan (RequeueChan w ++ [t]) w))
  else (false, w).

(** [select { case w.resetConnectionChan <- struct{}{}: ; default: }] *)
Definition trySend_resetConnectionChan : M bool := fun w =>
  if Nat.ltb (resetConnectionChan w) 1
  then (true, set_resetConnectionChan (S (resetConnectionChan w)) w)
  else (false, w).

(** [select { case <-w.resetConnectionChan: ; default: }] *)
Definition tryRecv_resetConnectionChan : M bool := fun w =>
  match resetConnectionChan w with
  | S n => (true, set_resetConnectionChan n w)
  | O => (false, w)
  end.

Definition blockedList_isBlock (target : string) : M bool := fun w =>
  (isBlock (blockedList w) target, emit (EvIsBlock target) w).
Definition blockedList_close (target : string) : M unit := fun w =>
  (tt, emit (EvClose target) (set_blockedList (close (blockedList w) target) w)).
Definition blockedList_recover (target : string) : M unit := fun w =>
  (tt, emit (EvRecover target) (set_blockedList (recover (blockedList w) target) w)).

Definition OnPointSuccessfullySent (n : Z) : M unit := tell (EvPointSent n).

(** [t.Process(ctx, w.config, w.Client)]; [ctx] is the state of the context
    when the call returns. *)
Definition call_Process (ctx : CtxState) (t : Transaction) : M (option string) := fun w =>
  (Process t ctx (config w) (Client w),
   emit (EvProcess (txid t) (client_id (Client w))) w).

(** ** [NewHTTPClient] and [resetConnections] *)

Definition NewHTTPClient : M HTTPClient := fun w =>
  let c := {| client_id := clients w;
              Timeout := wrap64 (forwarder_timeout (config w) * Second) |} in
  (c, emit (EvNewClient (client_id c)) (set_clients (S (clients w)) w)).

Definition CloseIdleConnections : M unit := fun w =>
  (tt, emit (EvCloseIdle (client_id (Client w))) w).

Definition resetConnections : M unit :=
  Debugf resetMsg ;;;
  CloseIdleConnections ;;;
  c <- NewHTTPClient ;;
  fun w => (tt, set_Client c w).

(** ** [ScheduleConnectionReset] *)

Definition ScheduleConnectionReset : M unit :=
  sent <- trySend_resetConnectionChan ;;
  if sent : bool then ret tt
  else ret tt (* a reset is already planned, we can ignore this one *).

(** The first [select] of [callProcess]: poll for connection reset events. *)
Definition poll_reset : M unit :=
  got <- tryRecv_resetConnectionChan ;;
  if got : bool then resetConnections else ret tt.

(** ** [process] *)

Definition requeue (t : Transaction) : M unit :=
  sent <- trySend_RequeueChan t ;;
  if sent : bool then ret tt else Errorf dropMsg.

Definition process (ctx : CtxState) (t : Transaction) : M unit :=
  let target := GetTarget t in
  blocked <- blockedList_isBlock target ;;
  if blocked : bool then
    requeue t ;;;
    Errorf (tooManyMsg target)
  else
    err <- call_Process ctx t ;;
    match err with
    | Some e =>
        blockedList_close target ;;;
        requeue t ;;;
        Errorf (processErrMsg e)
    | None =>
        OnPointSuccessfullySent (GetPointCount t) ;;;
        blockedList_recover target
    end.

(** The goroutine [go func() { w.process(ctx, t); done <- nil }()] runs
    [process] in two steps, because [t.Process] blocks: [process_begin] runs
    up to the call of [t.Process] (and to the end when the breaker blocks
    the target), [process_end] runs from the return of [t.Process]. *)
Definition process_begin (t : Transaction) : M (option HTTPClient) :=
  let target := GetTarget t in
  blocked <- blockedList_isBlock target ;;
  if blocked : bool then
    requeue t ;;;
    Errorf (tooManyMsg target) ;;;
    ret None
  else
    fun w => (Some (Client w), emit (EvProcess (txid t) (client_id (Client w))) w).

Definition process_end (t : Transaction) (err : option string) : M unit :=
  let target := GetTarget t in
  match err with
  | Some e =>
      blockedList_close target ;;;
      requeue t ;;;
      Errorf (processErrMsg e)
  | None =>
      OnPointSuccessfullySent (GetPointCount t) ;;;
      blockedList_recover target
  end.

(** ** [NewWorker] *)

Definition NewWorker (cfg : Config)
    (highPrioChan lowPrioChan requeueChan : list Transaction) (requeueCapacity : nat)
    (blocked : B) : World :=
  {| config := cfg;
     Client := {| client_id := 0; Timeout := wrap64 (forwarder_timeout cfg * Second) |};
     HighPrio := highPrioChan; LowPrio := lowPrioChan;
     RequeueChan := requeueChan; requeueCap := requeueCapacity;
     resetConnectionChan := 0;
     blockedList := blocked;
     clients := 1;
     trace := [EvNewClient 0] |}.

(** ** The threads

    A caller inside [callProcess] is at one of three places. *)
Inductive CallPc :=
| CEnter (t : Transaction)               (* entered; the reset poll is next *)
| CWait (t : Transaction) (done : nat)   (* goroutine spawned; at select { <-done, <-stopChan } *)
| CCancelled (t : Transaction) (done : nat). (* stop received, cancel() called; at <-done *)

(** The goroutine of [Start]. *)
Inductive LoopPc :=
| LSelect1                 (* at the first select of an iteration *)
| LSelect2                 (* at the second select *)
| LCall (c : CallPc)       (* inside callProcess *)
| LReturned.               (* returned; close(w.stopped) has run *)

(** The caller of [Stop]. *)
Inductive StopPc :=
| SIdle                    (* Stop has not been called *)
| SSend (purge : bool)     (* at w.stopChan <- struct{}{} *)
| SWait (purge : bool)     (* at <-w.stopped *)
| SPurge                   (* at the select of the purge loop *)
| SCall (c : CallPc)       (* inside callProcess, called from the purge loop *)
| SReturned.

(** A goroutine spawned by [callProcess]. *)
Inductive ProcPc :=
| PStart                          (* process has not started *)
| PInProcess (client : HTTPClient) (* inside t.Process(ctx, config, client) *)
| PSendDone.                      (* process returned; at done <- nil *)

Record Proc := {
  p_done : nat;            (* its done channel *)
  p_tx : Transaction;
  p_ctx : CtxState;        (* its context *)
  p_pc : ProcPc
}.

Record State := {
  world : World;
  loop : LoopPc;
  stopper : StopPc;
  stopped : bool;          (* w.stopped is closed *)
  procs : list Proc;       (* the live goroutines of callProcess *)
  nextDone : nat           (* done channels made so far *)
}.

Definition set_world (w : World) (s : State) : State :=
  {| world := w; loop := loop s; stopper := stopper s; stopped := stopped s;
     procs := procs s; nextDone := nextDone s |}.
Definition set_loop (l : LoopPc) (s : State) : State :=
  {| world := world s; loop := l; stopper := stopper s; stopped := stopped s;
     procs := procs s; nextDone := nextDone s |}.
Definition set_stopper (p : StopPc) (s : State) : State :=
  {| world := world s; loop := loop s; stopper := p; stopped := stopped s;
     procs := procs s; nextDone := nextDone s |}.
Definition set_procs (ps : list Proc) (s : State) : State :=
  {| world := world s; loop := loop s; stopper := stopper s; stopped := stopped s;
     procs := ps; nextDone := nextDone s |}.

Definition set_pc (pc : ProcPc) (p : Proc) : Proc :=
  {| p_done := p_done p; p_tx := p_tx p; p_ctx := p_ctx p; p_pc := pc |}.
Definition set_ctx (c : CtxState) (p : Proc) : Proc :=
  {| p_done := p_done p; p_tx := p_tx p; p_ctx := c; p_pc := p_pc p |}.

Fixpoint find_proc (d : nat) (ps : list Proc) : option Proc :=
  match ps with
  | [] => None
  | p :: r => if Nat.eqb (p_done p) d then Some p else find_proc d r
  end.
Fixpoint update_proc (d : nat) (f : Proc -> Proc) (ps : list Proc) : list Proc :=
  match ps with
  | [] => []
  | p :: r => if Nat.eqb (p_done p) d then f p :: r else p :: update_proc d f r
  end.
Fixpoint remove_proc (d : nat) (ps : list Proc) : list Proc :=
  match ps with
  | [] => []
  | p :: r => if Nat.eqb (p_done p) d then r else p :: remove_proc d r
  end.

(** [go func() {...}()] with a fresh [done] channel and a fresh context. *)
Definition spawn (t : Transaction) (s : State) : State :=
  {| world := world s; loop := loop s; stopper := stopper s; stopped := stopped s;
     procs := procs s ++ [{| p_done := nextDone s; p_tx := t; p_ctx := Live; p_pc := PStart |}];
     nextDone := S (nextDone s) |}.

(** [<-w.stopChan] completes only against a sender blocked in [Stop]. *)
Definition recv_stopChan (s : State) : option State :=
  match stopper s with
  | SSend purge => Some (set_stopper (SWait purge) s)
  | _ => None
  end.

Definition stop_pending (s : State) : bool :=
  match stopper s with SSend _ => true | _ => false end.

(** [return] in the goroutine of [Start]: the deferred [close(w.stopped)]. *)
Definition loop_return (s : State) : State :=
  {| world := world s; loop := LReturned; stopper := stopper s; stopped := true;
     procs := procs s; nextDone := nextDone s |}.

Inductive Caller := ByLoop | ByStop.

Definition call_of (who : Caller) (s : State) : option CallPc :=
  match who with
  | ByLoop => match loop s with LCall c => Some c | _ => None end
  | ByStop => match stopper s with SCall c => Some c | _ => None end
  end.

Definition set_call (who : Caller) (c : CallPc) (s : State) : State :=
  match who with
  | ByLoop => set_loop (LCall c) s
  | ByStop => set_stopper (SCall c) s
  end.

(** What the caller does with the value of [callProcess]: the loop
    continues on nil and returns otherwise; the purge loop ignores it. *)
Definition call_returns (who : Caller) (err : option string) (s : State) : State :=
  match who with
  | ByLoop => match err with
              | None => set_loop LSelect1 s
              | Some _ => loop_return s
              end
  | ByStop => set_stopper SPurge s
  end.

(** ** The transition system *)

Inductive Label :=
(* the rest of the program *)
| EnvSendHigh (t : Transaction)      (* the forwarder sends on HighPrio *)
| EnvSendLow (t : Transaction)       (* the forwarder sends on LowPrio *)
| EnvRecvRequeue                     (* the forwarder receives from RequeueChan *)
| DoScheduleConnectionReset          (* a call of ScheduleConnectionReset *)
| DoStop (purge : bool)              (* a call of Stop(purge) begins *)
(* Start: first select *)
| LoopHigh1 | LoopStop1 | LoopDefault1
(* Start: second select *)
| LoopHigh2 | LoopLow2 | LoopStop2
(* callProcess *)
| CallEnter (who : Caller)           (* reset poll, context, go func *)
| CallDone (who : Caller)            (* case <-done *)
| CallStop (who : Caller)            (* case <-w.stopChan: cancel() *)
| CallJoin (who : Caller)            (* <-done after cancel *)
(* the goroutine of callProcess *)
| ProcBegin (done : nat)
| ProcReturn (done : nat)
(* Stop *)
| StopAck                            (* <-w.stopped *)
| PurgeHigh | PurgeDefault.

Definition is_env (l : Label) : bool :=
  match l with
  | EnvSendHigh _ | EnvSendLow _ | EnvRecvRequeue
  | DoScheduleConnectionReset | DoStop _ => true
  | _ => false
  end.

Definition step (l : Label) (s : State) : option State :=
  match l with
  | EnvSendHigh t =>
      Some (set_world (set_HighPrio (HighPrio (world s) ++ [t]) (world s)) s)
  | EnvSendLow t =>
      Some (set_world (set_LowPrio (LowPrio (world s) ++ [t]) (world s)) s)
  | EnvRecvRequeue =>
      match RequeueChan (world s) with
      | _ :: q => Some (set_world (set_RequeueChan q (world s)) s)
      | [] => None
      end
  | DoScheduleConnectionReset =>
      Some (set_world (exec ScheduleConnectionReset (world s)) s)
  | DoStop purge =>
      match stopper s with
      | SIdle => Some (set_stopper (SSend purge) s)
      | _ => None
      end
  | LoopHigh1 =>
      match loop s, HighPrio (world s) with
      | LSelect1, t :: h =>
          Some (set_loop (LCall (CEnter t)) (set_world (set_HighPrio h (world s)) s))
      | _, _ => None
      end
  | LoopStop1 =>
      match loop s with
      | LSelect1 => option_map loop_return (recv_stopChan s)
      | _ => None
      end
  | LoopDefault1 =>
      match loop s, HighPrio (world s), stop_pending s with
      | LSelect1, [], false => Some (set_loop LSelect2 s)
      | _, _, _ => None
      end
  | LoopHigh2 =>
      match loop s, HighPrio (world s) with
      | LSelect2, t :: h =>
          Some (set_loop (LCall (CEnter t)) (set_world (set_HighPrio h (world s)) s))
      | _, _ => None
      end
  | LoopLow2 =>
      match loop s, LowPrio (world s) with
      | LSelect2, t :: r =>
          Some (set_loop (LCall (CEnter t)) (set_world (set_LowPrio r (world s)) s))
      | _, _ => None
      end
  | LoopStop2 =>
      match loop s with
      | LSelect2 => option_map loop_return (recv_stopChan s)
      | _ => None
      end
  | CallEnter who =>
      match call_of who s with
      | Some (CEnter t) =>
          Some (set_call who (CWait t (nextDone s))
                  (spawn t (set_world (exec poll_reset (world s)) s)))
      | _ => None
      end
  | CallDone who =>
      match call_of who s with
      | Some (CWait t d) =>
          match find_proc d (procs s) with
          | Some p =>
              match p_pc p with
              | PSendDone =>
                  Some (call_returns who None
                          (set_procs (remove_proc d (procs s))
                             (set_world (emit (EvCancel d) (world s)) s)))
              | _ => None
              end
          | None => None
          end
      | _ => None
      end
  | CallStop who =>
      match call_of who s with
      | Some (CWait t d) =>
          match recv_stopChan s with
          | Some s1 =>
              Some (set_call who (CCancelled t d)
                      (set_procs (update_proc d (set_ctx Canceled) (procs s1))
                         (set_world (emit (EvCancel d) (world s1)) s1)))
          | None => None
          end
      | _ => None
      end
  | CallJoin who =>
      match call_of who s with
      | Some (CCancelled t d) =>
          match find_proc d (procs s) with
          | Some p =>
              match p_pc p with
              | PSendDone =>
                  Some (call_returns who (Some stopErr)
                          (set_procs (remove_proc d (procs s)) s))
              | _ => None
              end
          | None => None
          end
      | _ => None
      end
  | ProcBegin d =>
      match find_proc d (procs s) with
      | Some p =>
          match p_pc p with
          | PStart =>
              let (r, w') := process_begin (p_tx p) (world s) in
              let pc := match r with Some c => PInProcess c | None => PSendDone end in
              Some (set_procs (update_proc d (set_pc pc) (procs s)) (set_world w' s))
          | _ => None
          end
      | None => None
      end
  | ProcReturn d =>
      match find_proc d (procs s) with
      | Some p =>
          match p_pc p with
          | PInProcess c =>
              let err := Process (p_tx p) (p_ctx p) (config (world s)) c in
              Some (set_procs (update_proc d (set_pc PSendDone) (procs s))
                      (set_world (exec (process_end (p_tx p) err) (world s)) s))
          | _ => None
          end
      | None => None
      end
  | StopAck =>
      match stopper s, stopped s with
      | SWait purge, true =>
          Some (set_stopper (if purge then SPurge else SReturned) s)
      | _, _ => None
      end
  | PurgeHigh =>
      match stopper s, HighPrio (world s) with
      | SPurge, t :: h =>
          Some (set_stopper (SCall (CEnter t))
                  (set_world (emit (EvLog Debug flushMsg) (set_HighPrio h (world s))) s))
      | _, _ => None
      end
  | PurgeDefault =>
      match stopper s, HighPrio (world s) with
      | SPurge, [] => Some (set_stopper SReturned s)
      | _, _ => None
      end
  end.

Fixpoint run (sched : list Label) (s : State) : option State :=
  match sched with
  | [] => Some s
  | l :: rest =>
      match step l s with
      | Some s' => run rest s'
      | None => None
      end
  end.

(** [Start]: the loop goroutine is spawned at its first select; nobody has
    called [Stop]. *)
Definition Start (w : World) : State :=
  {| world := w; loop := LSelect1; stopper := SIdle; stopped := false;
     procs := []; nextDone := 0 |}.

Definition reachable (w : World) (s : State) : Prop :=
  exists sched, run sched (Start w) = Some s.

(** ** Derived notions used to state the properties *)

(** The shape of the reachable states: which goroutines of [callProcess]
    are alive at each place of the loop and of [Stop]. *)
Definition one_proc (s : State) (t : Transaction) (d : nat) (c : CtxState) : Prop :=
  exists p, procs s = [p] /\ p_done p = d /\ p_tx p = t /\ p_ctx p = c.

Definition stop_not_received (s : State) : Prop :=
  stopper s = SIdle \/ exists purge, stopper s = SSend purge.

Definition Inv (s : State) : Prop :=
  match loop s with
  | LSelect1 | LSelect2 | LCall (CEnter _) =>
      procs s = [] /\ stopped s = false /\ stop_not_received s
  | LCall (CWait t d) =>
      one_proc s t d Live /\ stopped s = false /\ stop_not_received s
  | LCall (CCancelled t d) =>
      one_proc s t d Canceled /\ stopped s = false /\ exists purge, stopper s = SWait purge
  | LReturned =>
      stopped s = true /\
      match stopper s with
      | SIdle | SSend _ => False
      | SWait _ | SPurge | SReturned | SCall (CEnter _) => procs s = []
      | SCall (CWait t d) => one_proc s t d Live
      | SCall (CCancelled _ _) => False
      end
  end.

(** What is left of the goroutine [p] to run, as a schedule and as an
    effect on the shared objects. *)
Definition proc_sched (p : Proc) (w : World) : list Label :=
  match p_pc p with
  | PStart =>
      if isBlock (blockedList w) (GetTarget (p_tx p))
      then [ProcBegin (p_done p)]
      else [ProcBegin (p_done p); ProcReturn (p_done p)]
  | PInProcess _ => [ProcReturn (p_done p)]
  | PSendDone => []
  end.

Definition proc_finish (p : Proc) (w : World) : World :=
  match p_pc p with
  | PStart => exec (process (p_ctx p) (p_tx p)) w
  | PInProcess c =>
      exec (process_end (p_tx p) (Process (p_tx p) (p_ctx p) (config w) c)) w
  | PSendDone => w
  end.

(** One turn of the purge loop of [Stop] whose [callProcess] is not
    preempted: receive [t], leaving [rest] in [HighPrio]; log; poll for a
    reset; [process]; the trailing [cancel()] on the call's context [d]. *)
Definition purge_one (t : Transaction) (rest : list Transaction) (d : nat) : M unit :=
  (fun w => (tt, set_HighPrio rest w)) ;;;
  Debugf flushMsg ;;;
  poll_reset ;;;
  process Live t ;;;
  tell (EvCancel d).

Fixpoint purge_result (ts : list Transaction) (d : nat) (w : World) : World :=
  match ts with
  | [] => w
  | t :: rest => purge_result rest (S d) (exec (purge_one t rest d) w)
  end.

Fixpoint purge_sched (ts : list Transaction) (d : nat) (w : World) : list Label :=
  match ts with
  | [] => [PurgeDefault]
  | t :: rest =>
      let w1 := exec poll_reset (emit (EvLog Debug flushMsg) (set_HighPrio rest w)) in
      [PurgeHigh; CallEnter ByStop]
        ++ proc_sched {| p_done := d; p_tx := t; p_ctx := Live; p_pc := PStart |} w1
        ++ [CallDone ByStop]
        ++ purge_sched rest (S d) (exec (purge_one t rest d) w)
  end.

(** The step that the worker's side takes next once the loop has returned:
    only the caller of [Stop] and the goroutine of its [callProcess] are
    left, and they take turns. *)
Definition purge_next (s : State) : option Label :=
  match stopper s with
  | SWait _ => Some StopAck
  | SPurge =>
      match HighPrio (world s) with
      | [] => Some PurgeDefault
      | _ :: _ => Some PurgeHigh
      end
  | SCall (CEnter _) => Some (CallEnter ByStop)
  | SCall (CWait _ d) =>
      match procs s with
      | [p] =>
          match p_pc p with
          | PStart => Some (ProcBegin d)
          | PInProcess _ => Some (ProcReturn d)
          | PSendDone => Some (CallDone ByStop)
          end
      | _ => None
      end
  | _ => None
  end.

Definition worker_only (sched : list Label) : bool :=
  forallb (fun l => negb (is_env l)) sched.

(** The events appended to the trace between two worlds. *)
Definition new_events (w w' : World) : list Event :=
  skipn (List.length (trace w)) (trace w').

(** The claim that a purge spares the sink and the breaker, as the
    specification words it: along the run [sched] of a purge that starts
    in [s], nothing is sent on [RequeueChan] and the breaker is neither
    closed nor recovered. *)
Definition purge_spares_sink_and_breaker (s : State) (sched : list Label) : Prop :=
  forall s', run sched s = Some s' -> stopper s' = SReturned ->
    forall e, In e (new_events (world s) (world s')) ->
      is_requeue e = false /\ is_breaker_update e = false.

(** The claim that a preempted execution spares the sink and the breaker,
    as the specification words it: when [callProcess], called by the loop
    in [s], receives the stop signal, then along the run [sched] up to the
    return of the loop nothing is sent on [RequeueChan] and the breaker is
    neither closed nor recovered. *)
Definition preemption_spares_sink_and_breaker (s : State) (sched : list Label) : Prop :=
  forall s', run (CallStop ByLoop :: sched) s = Some s' -> loop s' = LReturned ->
    forall e, In e (new_events (world s) (world s')) ->
      is_requeue e = false /\ is_breaker_update e = false.

End WorkerModel.

(** ** A concrete breaker and concrete transactions, for the examples *)

(** Modelled from the spec: the circuit breaker [blockedEndpoints], whose
    file is not among the sources.  One counter of consecutive failures per
    target; [close] counts a failure, [recover] resets the count, and a
    target is blocked once its count has reached the threshold.  (The
    cooldown, which depends on the clock, is left out.) *)
Record CountingBreaker := {
  threshold : nat;
  failures : list (string * nat)
}.

Fixpoint failures_of (target : string) (l : list (string * nat)) : nat :=
  match l with
  | [] => 0
  | (k, n) :: r => if String.eqb k target then n else failures_of target r
  end.

Fixpoint set_failures (target : string) (n : nat) (l : list (string * nat))
  : list (string * nat) :=
  match l with
  | [] => [(target, n)]
  | (k, m) :: r =>
      if String.eqb k target then (k, n) :: r else (k, m) :: set_failures target n r
  end.

#[global] Instance counting_breaker : Breaker CountingBreaker := {
  isBlock b target := Nat.leb (threshold b) (failures_of target (failures b));
  close b target :=
    {| threshold := threshold b;
       failures := set_failures target (S (failures_of target (failures b))) (failures b) |};
  recover b target :=
    {| threshold := threshold b;
       failures := set_failures target 0 (failures b) |}
}.

Definition breaker0 : CountingBreaker := {| threshold := 2; failures := [] |}.
Definition breaker_open : CountingBreaker :=
  {| threshold := 2; failures := [("intake", 2)] |}.

Definition cfg0 : Config := {| forwarder_timeout := 20 |}.

(** A transaction that the intake accepts. *)
Definition tx_ok (id : nat) : Transaction :=
  {| txid := id; GetTarget := "intake"; GetPointCount := 7;
     Process := fun _ _ _ => None |}.

(** A transaction that the intake rejects. *)
Definition tx_fail (id : nat) : Transaction :=
  {| txid := id; GetTarget := "intake"; GetPointCount := 3;
     Process := fun _ _ _ => Some "status 500" |}.

(** A transaction that fails when its context is cancelled. *)
Definition tx_ctx (id : nat) : Transaction :=
  {| txid := id; GetTarget := "intake"; GetPointCount := 5;
     Process := fun ctx _ _ =>
       match ctx with Canceled => Some "context canceled" | Live => None end |}.

Definition final {B : Type} {breaker : Breaker B}
    (sched : list Label) (s : State) : State :=
  match run sched s with Some s' => s' | None => s end.

(** [Stop(true)] acknowledged with one rejected transaction still queued. *)
Definition purge_cex_state : State :=
  final [DoStop true; LoopStop1; StopAck]
        (Start (NewWorker cfg0 [tx_fail 1] [tx_ok 2] [] 4 breaker0)).
Definition purge_cex_sched : list Label :=
  [PurgeHigh; CallEnter ByStop; ProcBegin 0; ProcReturn 0; CallDone ByStop; PurgeDefault].

(** The loop inside [callProcess], [Stop(false)] waiting to send. *)
Definition preempt_cex_state : State :=
  final [LoopHigh1; CallEnter ByLoop; ProcBegin 0; DoStop false]
        (Start (NewWorker cfg0 [tx_ctx 1] [] [] 4 breaker0)).
Definition preempt_cex_sched : list Label := [ProcReturn 0; CallJoin ByLoop].

(** [Stop(true)] acknowledged with three transactions queued. *)
Definition purge3_state : State :=
  final [DoStop true; LoopStop1; StopAck]
        (Start (NewWorker cfg0 [tx_ok 1; tx_fail 2; tx_ok 3] [tx_ok 4] [] 4 breaker0)).

(** A worker whose breaker blocks the intake, and one whose sink is
    always full. *)
Definition w_blocked : @World CountingBreaker := NewWorker cfg0 [] [] [] 4 breaker_open.
Definition w_full : @World CountingBreaker := NewWorker cfg0 [] [] [] 0 breaker0.

(** The goroutine in flight in [preempt_cex_state]. *)
Definition preempt_proc : Proc :=
  {| p_done := 0; p_tx := tx_ctx 1; p_ctx := Live;
     p_pc := PInProcess {| client_id := 0; Timeout := 20000000000 |} |}.

(** A whole run of [Stop(false)] against a transaction in flight. *)
Definition stop_run_world : @World CountingBreaker :=
  NewWorker cfg0 [tx_ctx 1] [] [] 4 breaker0.
Definition stop_run_sched : list Label :=
  [LoopHigh1; CallEnter ByLoop; ProcBegin 0; DoStop false; CallStop ByLoop;
   ProcReturn 0; CallJoin ByLoop; StopAck].

(** The loop at its second select with both queues ready. *)
Definition both_ready_state : State :=
  final [LoopDefault1; EnvSendHigh (tx_ok 1); EnvSendLow (tx_ok 2)]
        (Start (NewWorker cfg0 [] [] [] 4 breaker0)).

(** The loop entering [callProcess] with a transaction that the intake
    rejects, the sink being full. *)
Definition drop_state : State :=
  final [LoopHigh1] (Start (NewWorker cfg0 [tx_fail 1] [] [] 0 breaker0)).


(** The transaction that a call of [callProcess] by the loop holds and has
    not yet submitted to the breaker. *)
Definition unchecked {B : Type} (s : @State B) : list Transaction :=
  match loop s with
  | LCall (CEnter t) => [t]
  | LCall (CWait t _) =>
      match procs s with
      | [p] => match p_pc p with PStart => [t] | _ => [] end
      | _ => []
      end
  | _ => []
  end.

(** The loop, left alone, works through the queues in order: the
    transactions submitted to the breaker so far, then the one held by
    [callProcess], then what is left of the queues, make up the queues of
    [w0], high priority first. *)
Definition in_order {B : Type} (w0 : @World B) (s : @State B) : Prop :=
  stopper s = SIdle /\
  (loop s = LSelect2 -> HighPrio (world s) = []) /\
  exists done evs,
    done ++ unchecked s ++ HighPrio (world s) ++ LowPrio (world s)
      = HighPrio w0 ++ LowPrio w0 /\
    trace (world s) = trace w0 ++ evs /\
    filter is_breaker_check evs = map (fun t => EvIsBlock (GetTarget t)) done.

(** * The caching parameter store of the end-to-end test runner

    [cachingStore] of package [parameters]: a [valueStore] that remembers
    the values its underlying store returned. *)
Module CachingStore.

Section Store.

(** [StoreKey] and the interface [valueStore] are declared in other files
    of the package: the key type is taken with its equality, the underlying
    store as an object with a state of its own whose [get] returns a value
    or an error. *)
Context {StoreKey : Type} (StoreKey_eqb : StoreKey -> StoreKey -> bool).
Context {S : Type} (inner_get : S -> StoreKey -> (string + string) * S).

(** A Go map from [StoreKey] to [string]: the pairs it holds, at most one
    per key. *)
Definition cache_map : Type := list (StoreKey * string).

Fixpoint cache_lookup (key : StoreKey) (m : cache_map) : option string :=
  match m with
  | [] => None
  | (k, v) :: r => if StoreKey_eqb k key then Some v else cache_lookup key r
  end.

(** [m[key] = value] *)
Definition cache_store (key : StoreKey) (value : string) (m : cache_map) : cache_map :=
  (key, value) :: filter (fun p => negb (StoreKey_eqb (fst p) key)) m.

(** The struct; the mutex makes [get] atomic.  [asked] records, oldest
    first, the calls made on the underlying store and their answers. *)
Record cachingStore := {
  cache : cache_map;
  s : S;
  asked : list (StoreKey * (string + string))
}.

Definition newCachingStore (s0 : S) : cachingStore :=
  {| cache := []; s := s0; asked := [] |}.

(** [get] returns the value and the error ([None] for nil). *)
Definition get (key : StoreKey) (cs : cachingStore)
  : (string * option string) * cachingStore :=
  match cache_lookup key (cache cs) with
  | Some value => ((value, None), cs)
  | None =>
      let (r, s') := inner_get (s cs) key in
      let log := asked cs ++ [(key, r)] in
      match r with
      | inr err => ((EmptyString, Some err), {| cache := cache cs; s := s'; asked := log |})
      | inl value =>
          ((value, None),
           {| cache := cache_store key value (cache cs); s := s'; asked := log |})
      end
  end.

(** A sequence of calls of [get]. *)
Fixpoint gets (keys : list StoreKey) (cs : cachingStore)
  : list (string * option string) * cachingStore :=
  match keys with
  | [] => ([], cs)
  | k :: r =>
      let (a, cs1) := get k cs in
      let (l, cs2) := gets r cs1 in
      (a :: l, cs2)
  end.

(** The successful answers of the underlying store for [key]. *)
Definition fetched (key : StoreKey) (log : list (StoreKey * (string + string)))
  : list string :=
  flat_map (fun a => match a with
                     | (k, inl v) => if StoreKey_eqb k key then [v] else []
                     | (_, inr _) => []
                     end) log.

(** The invariant of the store: the cache holds exactly the keys for which
    the underlying store gave a value, each with the one value it gave. *)
Definition coherent (cs : cachingStore) : Prop :=
  forall k, fetched k (asked cs) =
            match cache_lookup k (cache cs) with Some v => [v] | None => [] end.

End Store.

End CachingStore.

(** * The Java TLS program of universal service monitoring

    [isJavaProcess], [isAttachmentAllowed], [newJavaTLSProgram] and the
    [Start] and [Stop] of [JavaTLSProgram], of package [usm]. *)
Module JavaTLS.
Import Ascii.

Section Program.

(** The standard library and the other packages are taken as they are used:
    compiled regular expressions with [MatchString], [regexp.Compile]
    (which gives a regular expression or an error), [bytes.TrimSpace],
    [filepath.Join], [http.HTTPSSupported] and [os.Open] (whether it
    succeeds). *)
Context {Regexp : Type}.
Context (MatchString : Regexp -> string -> bool).
Context (regexp_Compile : string -> Regexp + string).
Context (bytes_TrimSpace : string -> string).
Context (filepath_Join : string -> string -> string).

Inductive LogLevel := LInfo | LDebug | LError.

(** The fields of [config.Config] read here. *)
Record Config := {
  EnableJavaTLSSupport : bool;
  EnableHTTPSMonitoring : bool;
  JavaDir : string;
  JavaAgentDebug : bool;
  JavaAgentArgs : string;
  JavaAgentAllowRegex : string;
  JavaAgentBlockRegex : string
}.

Context (HTTPSSupported : Config -> bool).
Context (os_Open : string -> option string).   (* the error, [None] when the file opens *)

Definition agentUSMJar : string := "agent-usm.jar".
Definition javaProcessName : string := "java".

(** The package variables. *)
Record Globals := {
  javaUSMAgentJarPath : string;
  javaUSMAgentDebug : bool;
  javaUSMAgentArgs : string;
  javaAgentAllowRegex : option Regexp;
  javaAgentBlockRegex : option Regexp
}.

Definition globals0 : Globals :=
  {| javaUSMAgentJarPath := ""; javaUSMAgentDebug := false; javaUSMAgentArgs := "";
     javaAgentAllowRegex := None; javaAgentBlockRegex := None |}.

(** [regexp.Compile] of a configured pattern: nil for the empty pattern and
    for a pattern that does not compile (an error is logged then). *)
Definition compile_filter (pattern : string) : option Regexp * list LogLevel :=
  if String.eqb pattern "" then (None, [])
  else match regexp_Compile pattern with
       | inl r => (Some r, [])
       | inr _ => (None, [LError])
       end.

(** [newJavaTLSProgram]: whether a program is returned, the package
    variables afterwards, and the levels of the log lines. *)
Definition newJavaTLSProgram (c : Config) (g : Globals)
  : bool * Globals * list LogLevel :=
  if negb (EnableJavaTLSSupport c) || negb (EnableHTTPSMonitoring c)
     || negb (HTTPSSupported c)
  then (false, g, [LInfo])
  else
    let path := filepath_Join (JavaDir c) agentUSMJar in
    let (allow, la) := compile_filter (JavaAgentAllowRegex c) in
    let (block, lb) := compile_filter (JavaAgentBlockRegex c) in
    let g' := {| javaUSMAgentJarPath := path;
                 javaUSMAgentDebug := JavaAgentDebug c;
                 javaUSMAgentArgs := JavaAgentArgs c;
                 javaAgentAllowRegex := allow;
                 javaAgentBlockRegex := block |} in
    match os_Open path with
    | Some _ => (false, g', [LInfo] ++ la ++ lb ++ [LError])
    | None => (true, g', [LInfo] ++ la ++ lb)
    end.

(** The loop of [isJavaProcess]: up to [n] more reads of the comm file,
    each after a sleep, from attempt [i] on; [comm i] is what the read
    number [i] returns ([None] for an error). *)
Fixpoint retry_read (comm : nat -> option string) (n i : nat) : option string * nat :=
  match n with
  | O => (None, i)
  | S n' =>
      match comm i with
      | Some content => (Some content, S i)
      | None => retry_read comm n' (S i)
      end
  end.

(** [isJavaProcess]: the answer and the number of reads made. *)
Definition isJavaProcess (comm : nat -> option string) : bool * nat :=
  let (content, reads) :=
    match comm 0 with
    | Some content => (Some content, 1)
    | None => retry_read comm 3 1
    end in
  match content with
  | None => (false, reads)
  | Some content => (String.eqb (bytes_TrimSpace content) javaProcessName, reads)
  end.

(** [strings.ReplaceAll(s, "\000", " ")] *)
Fixpoint nul_to_space (s : string) : string :=
  match s with
  | EmptyString => EmptyString
  | String c r =>
      String (if Ascii.eqb c Ascii.zero then " "%char else c) (nul_to_space r)
  end.

(** [isAttachmentAllowed]; [cmdline] is what reading the command line of
    the process returns ([None] for an error). *)
Definition isAttachmentAllowed (g : Globals)
    (comm : nat -> option string) (cmdline : option string) : bool :=
  if negb (fst (isJavaProcess comm)) then false
  else
    let allowIsSet := match javaAgentAllowRegex g with Some _ => true | None => false end in
    let blockIsSet := match javaAgentBlockRegex g with Some _ => true | None => false end in
    if negb allowIsSet && negb blockIsSet then true
    else
      match cmdline with
      | None => false
      | Some cmd =>
          let fullCmdline := nul_to_space cmd in
          if match javaAgentAllowRegex g with
             | Some r => MatchString r fullCmdline
             | None => false
             end
          then true
          else if match javaAgentBlockRegex g with
                  | Some r => MatchString r fullCmdline
                  | None => false
                  end
          then false
          else if negb (Bool.eqb allowIsSet blockIsSet)
          then (if allowIsSet then false else true)
          else true
      end.

(** The process monitor, seen through its calls. *)
Inductive MonitorCall := SubscribeExec | CleanupExec | Initialize | MonitorStop.

Definition is_cleanup (c : MonitorCall) : bool :=
  match c with CleanupExec => true | _ => false end.

(** [JavaTLSProgram]: whether [cleanupExec] is set; the other fields do not
    change. *)
Record JavaTLSProgram := { cleanupExec : bool }.

(** [Start]; [subscribed] is what [SubscribeExec] returns (whether a
    cleanup function, and the error), [initialized] the error of
    [Initialize]. *)
Definition Start (subscribed : bool * option string) (initialized : option string)
    (p : JavaTLSProgram) : JavaTLSProgram * list MonitorCall :=
  let p1 := {| cleanupExec := fst subscribed |} in
  let undo := if cleanupExec p1 then [CleanupExec] else [] in
  match snd subscribed with
  | Some _ => (p1, [SubscribeExec] ++ undo)
  | None =>
      match initialized with
      | Some _ => (p1, [SubscribeExec; Initialize] ++ undo)
      | None => (p1, [SubscribeExec; Initialize])
      end
  end.

(** [Stop], for a program made by [newJavaTLSProgram], whose process
    monitor is set. *)
Definition Stop (p : JavaTLSProgram) : list MonitorCall :=
  (if cleanupExec p then [CleanupExec] else []) ++ [MonitorStop].

End Program.

End JavaTLS.

(** * The index of USM data by connection

    [USMConnectionIndex] of package [encoding]: [GroupByConnection],
    [Find], [IsPIDCollision] and [Close]. *)
Module USM.

Section Index.

(** [types.ConnectionKey] is comparable; [network.ConnectionStats] is seen
    through its two ports (uint16) and the rest of it. *)
Context {K V ConnectionKey Tuple : Type}.
Context (ConnectionKey_eqb : ConnectionKey -> ConnectionKey -> bool).

Record ConnectionStats := {
  SPort : Z;
  DPort : Z;
  tuple : Tuple
}.

Record USMKeyValue := {
  Key : K;
  Value : V
}.

(** [Data] is a slice: its elements and the capacity of its array ([None]
    for the nil slice). *)
Record USMConnectionData := {
  Data : list USMKeyValue;
  DataCap : option nat;
  sport : Z;
  dport : Z;
  claimed : bool;
  size : Z
}.

(** [new(USMConnectionData[K, V])] *)
Definition new_USMConnectionData : USMConnectionData :=
  {| Data := []; DataCap := None; sport := 0; dport := 0; claimed := false; size := 0 |}.

(** The map from [ConnectionKey] to [*USMConnectionData]: one pair per key;
    the values are pointers, so that a change to a value is a change to
    the entry of the map. *)
Definition conn_map : Type := list (ConnectionKey * USMConnectionData).

Fixpoint conn_lookup (ck : ConnectionKey) (m : conn_map) : option USMConnectionData :=
  match m with
  | [] => None
  | (k, d) :: r => if ConnectionKey_eqb k ck then Some d else conn_lookup ck r
  end.

Fixpoint conn_update (ck : ConnectionKey) (f : USMConnectionData -> USMConnectionData)
    (m : conn_map) : conn_map :=
  match m with
  | [] => []
  | (k, d) :: r =>
      if ConnectionKey_eqb k ck then (k, f d) :: r else (k, d) :: conn_update ck f r
  end.

(** [USMLookup] is declared in another file; it returns the entry of the
    map it selects for a connection, by its key, or nil. *)
Context (USMLookup : ConnectionStats -> conn_map -> option ConnectionKey).

Record USMConnectionIndex := {
  lookupFn : ConnectionStats -> conn_map -> option ConnectionKey;
  data : conn_map;
  protocol : string;
  once : bool              (* the [sync.Once] has run *)
}.

(** [append] on a slice: the array is kept while it has room; [grow] is
    the capacity the runtime chooses otherwise. *)
Context (grow : nat -> nat).

Definition append (l : list USMKeyValue) (cap : option nat) (x : USMKeyValue)
  : list USMKeyValue * option nat :=
  match cap with
  | Some c =>
      if Nat.ltb (List.length l) c then (l ++ [x], Some c)
      else (l ++ [x], Some (grow (S (List.length l))))
  | None => (l ++ [x], Some (grow 1))
  end.

(** [connectionData.size++] *)
Definition incr_size (d : USMConnectionData) : USMConnectionData :=
  {| Data := Data d; DataCap := DataCap d; sport := sport d; dport := dport d;
     claimed := claimed d; size := wrap64 (size d + 1) |}.

(** The body of the first loop of [GroupByConnection]. *)
Definition first_pass (keyGen : K -> ConnectionKey) (m : conn_map) (key : K) : conn_map :=
  let connectionKey := keyGen key in
  match conn_lookup connectionKey m with
  | Some _ => conn_update connectionKey incr_size m
  | None => m ++ [(connectionKey, incr_size new_USMConnectionData)]
  end.

(** [make([]USMKeyValue[K, V], 0, connectionData.size)] when [Data] is nil,
    then [append]. *)
Definition add_data (key : K) (value : V) (d : USMConnectionData) : USMConnectionData :=
  let cap := match DataCap d with
             | None => Some (Z.to_nat (size d))
             | Some c => Some c
             end in
  let (l, cap') := append (Data d) cap {| Key := key; Value := value |} in
  {| Data := l; DataCap := cap'; sport := sport d; dport := dport d;
     claimed := claimed d; size := size d |}.

(** The body of the second loop; the number counts the errors logged for a
    missing aggregation. *)
Definition second_pass (keyGen : K -> ConnectionKey)
    (st : conn_map * nat) (kv : K * V) : conn_map * nat :=
  let (m, errors) := st in
  let connectionKey := keyGen (fst kv) in
  match conn_lookup connectionKey m with
  | None => (m, S errors)
  | Some _ => (conn_update connectionKey (add_data (fst kv) (snd kv)) m, errors)
  end.

(** [GroupByConnection].  [data] is a Go map, ranged over twice, each time
    in an order of the runtime's choosing: [pass1] and [pass2] are its
    pairs in the order of the first and of the second loop. *)
Definition GroupByConnection (protocol_name : string) (pass1 pass2 : list (K * V))
    (keyGen : K -> ConnectionKey) : USMConnectionIndex * nat :=
  let m1 := fold_left (first_pass keyGen) (map fst pass1) [] in
  let (m2, errors) := fold_left (second_pass keyGen) pass2 (m1, 0) in
  ({| lookupFn := USMLookup; data := m2; protocol := protocol_name; once := false |},
   errors).

Definition set_claimed (d : USMConnectionData) : USMConnectionData :=
  {| Data := Data d; DataCap := DataCap d; sport := sport d; dport := dport d;
     claimed := true; size := size d |}.

(** [Find]: the entry returned, marked as claimed in the map. *)
Definition Find (c : ConnectionStats) (bc : USMConnectionIndex)
  : option USMConnectionData * USMConnectionIndex :=
  match lookupFn bc c (data bc) with
  | Some ck =>
      match conn_lookup ck (data bc) with
      | Some d =>
          (Some (set_claimed d),
           {| lookupFn := lookupFn bc; data := conn_update ck set_claimed (data bc);
              protocol := protocol bc; once := once bc |})
      | None => (None, bc)
      end
  | None => (None, bc)
  end.

(** [IsPIDCollision]: the answer and the data afterwards. *)
Definition IsPIDCollision (c : ConnectionStats) (gd : USMConnectionData)
  : bool * USMConnectionData :=
  if Z.eqb (sport gd) 0 && Z.eqb (dport gd) 0 then
    (false,
     {| Data := Data gd; DataCap := DataCap gd; sport := SPort c; dport := DPort c;
        claimed := claimed gd; size := size gd |})
  else if Z.eqb (SPort c) (dport gd) && Z.eqb (DPort c) (sport gd) then
    (false, gd)
  else
    (true, gd).

(** A sequence of calls of [IsPIDCollision] on the same data. *)
Fixpoint collisions (cs : list ConnectionStats) (gd : USMConnectionData)
  : list bool * USMConnectionData :=
  match cs with
  | [] => ([], gd)
  | c :: r =>
      let (a, gd1) := IsPIDCollision c gd in
      let (l, gd2) := collisions r gd1 in
      (a :: l, gd2)
  end.

(** The count of [Close]: the aggregations of the entries not claimed. *)
Definition orphan_total (m : conn_map) : Z :=
  fold_left (fun total e =>
               if claimed (snd e) then total
               else wrap64 (total + Z.of_nat (List.length (Data (snd e)))))
            m 0%Z.

(** [Close]: the index afterwards and the count reported (logged and added
    to the metric of the protocol), if any. *)
Definition Close (bc : USMConnectionIndex) : USMConnectionIndex * option Z :=
  if once bc then (bc, None)
  else
    let total := orphan_total (data bc) in
    ({| lookupFn := lookupFn bc; data := data bc; protocol := protocol bc; once := true |},
     if Z.eqb total 0 then None else Some total).

(** A sequence of calls of [Find]: the keys of the entries returned, and
    the index afterwards. *)
Fixpoint finds (cs : list ConnectionStats) (bc : USMConnectionIndex)
  : list ConnectionKey * USMConnectionIndex :=
  match cs with
  | [] => ([], bc)
  | c :: r =>
      let found := match lookupFn bc c (data bc) with
                   | Some ck => match conn_lookup ck (data bc) with
                                | Some _ => [ck]
                                | None => []
                                end
                   | None => []
                   end in
      let (l, bc') := finds r (snd (Find c bc)) in
      (found ++ l, bc')
  end.

(** The pairs of [l] that [keyGen] sends to [ck], as aggregations. *)
Definition group_of (keyGen : K -> ConnectionKey) (ck : ConnectionKey) (l : list (K * V))
  : list USMKeyValue :=
  map (fun kv => {| Key := fst kv; Value := snd kv |})
      (filter (fun kv => ConnectionKey_eqb (keyGen (fst kv)) ck) l).

(** The number of keys of [ks] that [keyGen] sends to [ck]. *)
Definition count_of (keyGen : K -> ConnectionKey) (ck : ConnectionKey) (ks : list K) : nat :=
  List.length (filter (fun k => ConnectionKey_eqb (keyGen k) ck) ks).

(** An entry as the first loop leaves it after [n] keys. *)
Definition counted (n : nat) : USMConnectionData :=
  {| Data := []; DataCap := None; sport := 0; dport := 0; claimed := false;
     size := Z.of_nat n |}.

(** An entry as the second loop leaves it: [n] keys counted, the
    aggregations [l] appended. *)
Definition filled (n : nat) (l : list USMKeyValue) : USMConnectionData :=
  {| Data := l; DataCap := match l with [] => None | _ :: _ => Some n end;
     sport := 0; dport := 0; claimed := false; size := Z.of_nat n |}.

(** The aggregations of the entries of a map that are not claimed. *)
Definition unclaimed_sum (m : conn_map) : nat :=
  fold_right (fun e acc =>
                (if claimed (snd e) then 0 else List.length (Data (snd e))) + acc) 0 m.

(** What the first loop has built after the keys [ks]. *)
Definition inv1 (keyGen : K -> ConnectionKey) (ks : list K) (m : conn_map) : Prop :=
  NoDup (map fst m) /\ List.length m <= List.length ks /\
  forall ck, conn_lookup ck m =
             match count_of keyGen ck ks with O => None | S n => Some (counted (S n)) end.

(** What the second loop has built after the pairs [q], [n] being the
    counts of the first loop. *)
Definition inv2 (keyGen : K -> ConnectionKey) (n : ConnectionKey -> nat)
    (q : list (K * V)) (st : conn_map * nat) : Prop :=
  snd st = 0 /\ NoDup (map fst (fst st)) /\
  forall ck, conn_lookup ck (fst st) =
             match n ck with
             | O => None
             | S j => Some (filled (S j) (group_of keyGen ck q))
             end.

(** The entries hold the groups of [l]. *)
Definition grouped (keyGen : K -> ConnectionKey) (l : list (K * V)) (m : conn_map) : Prop :=
  NoDup (map fst m) /\
  forall ck, match conn_lookup ck m with
             | None => List.length (group_of keyGen ck l) = 0
             | Some d => Data d = group_of keyGen ck l
             end.

(** Whether the entry of [ck] exists and is not claimed. *)
Definition unclaimed (m : conn_map) (ck : ConnectionKey) : bool :=
  match conn_lookup ck m with
  | Some d => negb (claimed d)
  | None => false
  end.

(** The number of unclaimed entries of [m] under the key [c]. *)
Fixpoint hits (m : conn_map) (c : ConnectionKey) : nat :=
  match m with
  | [] => 0
  | (ck, d) :: r =>
      (if claimed d then 0 else if ConnectionKey_eqb c ck then 1 else 0) + hits r c
  end.

(** The pairs of [l] in the groups of the unclaimed entries of [m]. *)
Fixpoint group_sum (keyGen : K -> ConnectionKey) (m : conn_map) (l : list (K * V)) : nat :=
  match m with
  | [] => 0
  | (ck, d) :: r =>
      (if claimed d then 0 else List.length (group_of keyGen ck l)) + group_sum keyGen r l
  end.

End Index.

End USM.

(** ** Concrete instances of the other modules, for their examples *)

(** An underlying store that fails when it is first asked and answers
    from then on. *)
Definition flaky_get (n : nat) (key : string) : (string + string) * nat :=
  match n with
  | O => (inr "timeout", 1)
  | S _ => (inl (String.append key "-value"), S n)
  end.

(** An underlying store that always answers the same. *)
Definition constant_answer (key : string) : string + string :=
  if String.eqb key "missing" then inr "not found"
  else inl (String.append key "-value").
Definition constant_get (n : nat) (key : string) : (string + string) * nat :=
  (constant_answer key, S n).

(** A stand-in for regular expressions: an expression is a prefix, and an
    expression that opens a group does not compile. *)
Definition prefix_MatchString (r s : string) : bool := String.prefix r s.
Definition prefix_Compile (pattern : string) : string + string :=
  if String.prefix "(" pattern then inr "missing closing )" else inl pattern.

(** A stand-in for [bytes.TrimSpace] that drops the line feeds. *)
Fixpoint drop_line_feeds (s : string) : string :=
  match s with
  | EmptyString => EmptyString
  | String c r =>
      if Ascii.eqb c (Ascii.ascii_of_nat 10) then drop_line_feeds r
      else String c (drop_line_feeds r)
  end.

Definition slash_Join (dir file : string) : string :=
  String.append dir (String.append "/" file).

(** The comm file of a Java process that can be read at the third try. *)
Definition java_comm (attempt : nat) : option string :=
  match attempt with
  | 0 | 1 => None
  | _ => Some (String.append "java" (String (Ascii.ascii_of_nat 10) EmptyString))
  end.

Definition allow_only : @JavaTLS.Globals string :=
  {| JavaTLS.javaUSMAgentJarPath := "/opt/agent-usm.jar";
     JavaTLS.javaUSMAgentDebug := false;
     JavaTLS.javaUSMAgentArgs := "";
     JavaTLS.javaAgentAllowRegex := Some "java -jar";
     JavaTLS.javaAgentBlockRegex := None |}.

Definition bad_allow_config : JavaTLS.Config :=
  {| JavaTLS.EnableJavaTLSSupport := true;
     JavaTLS.EnableHTTPSMonitoring := true;
     JavaTLS.JavaDir := "/opt";
     JavaTLS.JavaAgentDebug := false;
     JavaTLS.JavaAgentArgs := "";
     JavaTLS.JavaAgentAllowRegex := "(java";
     JavaTLS.JavaAgentBlockRegex := "" |}.

(** USM data keyed by a number whose tens are the connection: three
    aggregations on two connections, ranged over in two orders. *)
Definition tens (k : nat) : nat := Nat.div k 10.
Definition usm_pass1 : list (nat * string) := [(11, "GET /a"); (25, "GET /b"); (12, "GET /c")].
Definition usm_pass2 : list (nat * string) := [(12, "GET /c"); (11, "GET /a"); (25, "GET /b")].

(** A lookup that returns the entry named by the rest of the connection. *)
Definition tuple_lookup (c : @USM.ConnectionStats nat)
    (m : @USM.conn_map nat string nat) : option nat :=
  Some (USM.tuple c).

Definition double (n : nat) : nat := 2 * n.

Definition conn_of (sp dp : Z) (ck : nat) : @USM.ConnectionStats nat :=
  {| USM.SPort := sp; USM.DPort := dp; USM.tuple := ck |}.

Definition claimed_data : @USM.USMConnectionData nat string :=
  {| USM.Data := []; USM.DataCap := None; USM.sport := 40000; USM.dport := 80;
     USM.claimed := true; USM.size := 0 |}.

(** A worker with one transaction in each queue. *)
Definition two_queues_world : @World CountingBreaker :=
  NewWorker cfg0 [tx_ok 1] [tx_ok 2] [] 4 breaker0.
Definition two_queues_sched : list Label :=
  [LoopHigh1; CallEnter ByLoop; ProcBegin 0; ProcReturn 0; CallDone ByLoop;
   LoopDefault1; LoopLow2; CallEnter ByLoop; ProcBegin 1].

(** A worker with a connection reset scheduled. *)
Definition w_reset : @World CountingBreaker := exec ScheduleConnectionReset w_full.

(** * Properties *)

Arguments has_room : simpl never.

(** Unfolds the monadic definitions down to functions on the world. *)
Ltac unfold_m :=
  unfold exec, process, process_begin, process_end, requeue, poll_reset,
    resetConnections, ScheduleConnectionReset, purge_one,
    blockedList_isBlock, blockedList_close, blockedList_recover,
    call_Process, OnPointSuccessfullySent, CloseIdleConnections,
    NewHTTPClient, trySend_RequeueChan, trySend_resetConnectionChan,
    tryRecv_resetConnectionChan, Errorf, Debugf, tell, bind, ret in *.

Section ProcessProofs.

Context {B : Type} {breaker : Breaker B}.

Lemma new_events_app (w w' : @World B) (evs : list Event) :
  trace w' = trace w ++ evs -> new_events w w' = evs.
Proof.
  intros H. unfold new_events. rewrite H.
  rewrite skipn_app, skipn_all, Nat.sub_diag. reflexivity.
Qed.

(** The two steps of the goroutine make up [process]. *)
Lemma process_split (ctx : CtxState) (t : Transaction) (w : @World B) :
  exec (process ctx t) w =
  match process_begin t w with
  | (None, w1) => w1
  | (Some c, w1) => exec (process_end t (Process t ctx (config w1) c)) w1
  end.
Proof.
  unfold_m. simpl.
  destruct (isBlock (blockedList w) (GetTarget t)); simpl.
  - destruct (has_room _ _); reflexivity.
  - destruct (Process t ctx (config w) (Client w)); simpl; [|reflexivity].
    destruct (has_room _ _); reflexivity.
Qed.

Lemma tooManyMsg_not_drop (target : string) : tooManyMsg target <> dropMsg.
Proof. unfold tooManyMsg, dropMsg. simpl. discriminate. Qed.

Lemma processErrMsg_not_drop (e : string) : processErrMsg e <> dropMsg.
Proof. unfold processErrMsg, dropMsg. simpl. discriminate. Qed.

(** What [process] appends to the trace, case by case. *)
Lemma process_trace (ctx : CtxState) (t : Transaction) (w : @World B) :
  let target := GetTarget t in
  let sink := if has_room (RequeueChan w) (requeueCap w)
              then [EvRequeue (txid t)] else [EvLog Error dropMsg] in
  trace (exec (process ctx t) w) = trace w ++
    (if isBlock (blockedList w) target then
       [EvIsBlock target] ++ sink ++ [EvLog Error (tooManyMsg target)]
     else
       match Process t ctx (config w) (Client w) with
       | Some e =>
           [EvIsBlock target; EvProcess (txid t) (client_id (Client w)); EvClose target]
             ++ sink ++ [EvLog Error (processErrMsg e)]
       | None =>
           [EvIsBlock target; EvProcess (txid t) (client_id (Client w));
            EvPointSent (GetPointCount t); EvRecover target]
       end).
Proof.
  unfold_m. simpl.
  destruct (isBlock (blockedList w) (GetTarget t)); simpl.
  - destruct (has_room _ _); simpl; repeat rewrite <- app_assoc; reflexivity.
  - destruct (Process t ctx (config w) (Client w)); simpl.
    + destruct (has_room _ _); simpl; repeat rewrite <- app_assoc; reflexivity.
    + repeat rewrite <- app_assoc; reflexivity.
Qed.

(** What [process] does to the sink. *)
Lemma process_sink (ctx : CtxState) (t : Transaction) (w : @World B) :
  RequeueChan (exec (process ctx t) w) =
    if isBlock (blockedList w) (GetTarget t) then
      if has_room (RequeueChan w) (requeueCap w) then RequeueChan w ++ [t] else RequeueChan w
    else
      match Process t ctx (config w) (Client w) with
      | Some _ =>
          if has_room (RequeueChan w) (requeueCap w) then RequeueChan w ++ [t] else RequeueChan w
      | None => RequeueChan w
      end.
Proof.
  unfold_m. simpl.
  destruct (isBlock (blockedList w) (GetTarget t)); simpl.
  - destruct (has_room _ _); reflexivity.
  - destruct (Process t ctx (config w) (Client w)); simpl; [|reflexivity].
    destruct (has_room _ _); reflexivity.
Qed.

(** What [process] does to the breaker. *)
Lemma process_breaker (ctx : CtxState) (t : Transaction) (w : @World B) :
  blockedList (exec (process ctx t) w) =
    if isBlock (blockedList w) (GetTarget t) then blockedList w
    else
      match Process t ctx (config w) (Client w) with
      | Some _ => close (blockedList w) (GetTarget t)
      | None => recover (blockedList w) (GetTarget t)
      end.
Proof.
  unfold_m. simpl.
  destruct (isBlock (blockedList w) (GetTarget t)); simpl.
  - destruct (has_room _ _); reflexivity.
  - destruct (Process t ctx (config w) (Client w)); simpl; [|reflexivity].
    destruct (has_room _ _); reflexivity.
Qed.

(** C6: when the breaker blocks the target of a transaction, [process]
    never invokes the transaction's [Process] (the goroutine of
    [callProcess] does not enter it either), and it offers the transaction
    to the requeue sink without blocking: the transaction is enqueued when
    the sink has room, and otherwise the drop is logged as an error. *)
Theorem blocked_target_is_requeued_without_call
    (ctx : CtxState) (t : Transaction) (w : @World B) :
  isBlock (blockedList w) (GetTarget t) = true ->
  let w' := exec (process ctx t) w in
  fst (process_begin t w) = None /\
  (forall e, In e (new_events w w') -> is_process_call e = false) /\
  (if has_room (RequeueChan w) (requeueCap w)
   then RequeueChan w' = RequeueChan w ++ [t] /\
        new_events w w' =
          [EvIsBlock (GetTarget t); EvRequeue (txid t);
           EvLog Error (tooManyMsg (GetTarget t))]
   else RequeueChan w' = RequeueChan w /\
        new_events w w' =
          [EvIsBlock (GetTarget t); EvLog Error dropMsg;
           EvLog Error (tooManyMsg (GetTarget t))]).
Proof.
  intros Hb w'.
  pose proof (process_trace ctx t w) as Ht.
  pose proof (process_sink ctx t w) as Hs.
  simpl in Ht. rewrite Hb in Ht, Hs.
  apply new_events_app in Ht. fold w' in Ht, Hs.
  split; [|split].
  - unfold_m. simpl. rewrite Hb. simpl.
    destruct (has_room _ _); reflexivity.
  - rewrite Ht. intros e He.
    destruct (has_room _ _); simpl in He;
      repeat (destruct He as [He|He]; [subst e; reflexivity|]); contradiction.
  - rewrite Ht, Hs. destruct (has_room _ _); split; reflexivity.
Qed.

(** C7: for a transaction that failed or whose target is blocked, the
    push on the requeue sink never blocks.  [process] is total: with room
    in the sink the transaction is enqueued and no drop is logged; with a
    full sink the sink is left as it is and the drop is logged as an
    error.  In the transition system the goroutine that runs [process] can
    always take its next step, whatever the state of the sink. *)
Theorem requeue_never_blocks :
  (forall (ctx : CtxState) (t : Transaction) (w : @World B),
     (isBlock (blockedList w) (GetTarget t) = true \/
      (isBlock (blockedList w) (GetTarget t) = false /\
       exists e, Process t ctx (config w) (Client w) = Some e)) ->
     let w' := exec (process ctx t) w in
     if has_room (RequeueChan w) (requeueCap w)
     then RequeueChan w' = RequeueChan w ++ [t] /\
          In (EvRequeue (txid t)) (new_events w w') /\
          ~ In (EvLog Error dropMsg) (new_events w w')
     else RequeueChan w' = RequeueChan w /\
          In (EvLog Error dropMsg) (new_events w w') /\
          ~ In (EvRequeue (txid t)) (new_events w w')) /\
  (forall (s : @State B) (d : nat) (p : Proc),
     find_proc d (procs s) = Some p ->
     match p_pc p with
     | PStart => exists s', step (ProcBegin d) s = Some s'
     | PInProcess _ => exists s', step (ProcReturn d) s = Some s'
     | PSendDone => True
     end).
Proof.
  split.
  - intros ctx t w Hfb w'.
    pose proof (process_trace ctx t w) as Ht.
    pose proof (process_sink ctx t w) as Hs.
    simpl in Ht. fold w' in Ht, Hs.
    assert (Hcase :
      exists m, m <> dropMsg /\ exists pre,
        ~ In (EvLog Error dropMsg) pre /\ ~ In (EvRequeue (txid t)) pre /\
        new_events w w' = pre ++
          (if has_room (RequeueChan w) (requeueCap w)
           then [EvRequeue (txid t)] else [EvLog Error dropMsg]) ++ [EvLog Error m] /\
        RequeueChan w' =
          if has_room (RequeueChan w) (requeueCap w)
          then RequeueChan w ++ [t] else RequeueChan w).
    { destruct Hfb as [Hb | [Hb [e He]]].
      - rewrite Hb in Ht, Hs. apply new_events_app in Ht.
        exists (tooManyMsg (GetTarget t)). split; [apply tooManyMsg_not_drop|].
        exists [EvIsBlock (GetTarget t)]. repeat split; auto.
        + simpl. intros [H|[]]; discriminate.
        + simpl. intros [H|[]]; discriminate.
      - rewrite Hb, He in Ht, Hs. apply new_events_app in Ht.
        exists (processErrMsg e). split; [apply processErrMsg_not_drop|].
        exists [EvIsBlock (GetTarget t);
                EvProcess (txid t) (client_id (Client w)); EvClose (GetTarget t)].
        repeat split; auto.
        + simpl. intros [H|[H|[H|[]]]]; discriminate.
        + simpl. intros [H|[H|[H|[]]]]; discriminate. }
    destruct Hcase as [m [Hm [pre [Hp1 [Hp2 [Hev Hq]]]]]].
    rewrite Hev, Hq.
    destruct (has_room _ _); (split; [reflexivity|split]).
    + apply in_or_app. right. left. reflexivity.
    + intros H. apply in_app_or in H. destruct H as [H|H]; [contradiction|].
      simpl in H. destruct H as [H|[H|[]]]; [discriminate|].
      injection H as H. contradiction.
    + apply in_or_app. right. left. reflexivity.
    + intros H. apply in_app_or in H. destruct H as [H|H]; [contradiction|].
      simpl in H. destruct H as [H|[H|[]]]; discriminate.
  - intros s d p Hf. destruct (p_pc p) eqn:Hpc; [| |exact I].
    + unfold step. rewrite Hf, Hpc.
      destruct (process_begin (p_tx p) (world s)). eexists; reflexivity.
    + unfold step. rewrite Hf, Hpc. eexists; reflexivity.
Qed.


(** C10: when the breaker blocks the target of a transaction, [process]
    leaves the breaker as it is: its state is unchanged and neither
    [close] nor [recover] is called. *)
Theorem blocked_target_leaves_breaker
    (ctx : CtxState) (t : Transaction) (w : @World B) :
  isBlock (blockedList w) (GetTarget t) = true ->
  let w' := exec (process ctx t) w in
  blockedList w' = blockedList w /\
  forall e, In e (new_events w w') -> is_breaker_update e = false.
Proof.
  intros Hb w'.
  pose proof (process_trace ctx t w) as Ht.
  pose proof (process_breaker ctx t w) as Hbr.
  simpl in Ht. rewrite Hb in Ht, Hbr.
  apply new_events_app in Ht. fold w' in Ht, Hbr.
  split; [exact Hbr|].
  rewrite Ht. intros e He.
  destruct (has_room _ _); simpl in He;
    repeat (destruct He as [He|He]; [subst e; reflexivity|]); contradiction.
Qed.

End ProcessProofs.

Section SystemProofs.

Context {B : Type} {breaker : Breaker B}.

(** *** Frame facts about the reset channel *)





Lemma Inv_Start (w : @World B) : Inv (Start w).
Proof.
  unfold Inv, Start, stop_not_received. simpl. auto.
Qed.

Ltac break_hyps :=
  repeat match goal with
  | H : _ /\ _ |- _ => destruct H
  | H : exists _, _ |- _ => destruct H
  | H : False |- _ => contradiction
  | H : _ \/ _ |- _ => destruct H
  end.

Ltac break_step Hs :=
  repeat match type of Hs with
  | context [match ?x with _ => _ end] => destruct x eqn:?; try discriminate
  end.

(** Every step keeps the shape of the state. *)
Lemma step_Inv (l : Label) (s s' : @State B) :
  Inv s -> step l s = Some s' -> Inv s'.
Proof.
  intros HI Hs. destruct s as [w lp sp st ps nd].
  unfold Inv, one_proc, stop_not_received in *. simpl in *.
  destruct l as [t|t| | |b| | | | | | |who|who|who|who|d|d| | |];
    try destruct who;
    destruct lp as [ | |[t1|t1 d1|t1 d1]| ];
    destruct sp as [ |b2|b2| |[t2|t2 d2|t2 d2]| ];
    simpl in Hs; try discriminate; break_hyps; subst; try discriminate;
    simpl in Hs; rewrite ?Nat.eqb_refl in Hs; try discriminate;
    break_step Hs; try (injection Hs as <-); simpl;
    eauto 10.
Qed.


Lemma run_invariant (P : @State B -> Prop) :
  (forall l s s', P s -> step l s = Some s' -> P s') ->
  forall sched s s', P s -> run sched s = Some s' -> P s'.
Proof.
  intros Hstep sched. induction sched as [|l r IH]; intros s s' HP Hrun.
  - simpl in Hrun. injection Hrun as <-. exact HP.
  - simpl in Hrun. destruct (step l s) as [s1|] eqn:E; [|discriminate].
    apply (IH s1); [eapply Hstep; eauto|exact Hrun].
Qed.

Lemma reachable_Inv (w : @World B) (s : @State B) : reachable w s -> Inv s.
Proof.
  intros [sched Hrun].
  apply (run_invariant Inv step_Inv sched (Start w) s (Inv_Start w) Hrun).
Qed.


(** *** Runs *)

Ltac norm := repeat (progress (simpl; rewrite ?Nat.eqb_refl)).

Lemma run_cons (l : Label) (r : list Label) (s : @State B) :
  run (l :: r) s = match step l s with Some s' => run r s' | None => None end.
Proof. reflexivity. Qed.

Lemma run_app (a b : list Label) (s : @State B) :
  run (a ++ b) s = match run a s with Some s1 => run b s1 | None => None end.
Proof.
  revert s. induction a as [|l a IH]; intros s; simpl; [reflexivity|].
  destruct (step l s); [apply IH|reflexivity].
Qed.

Lemma process_begin_blocked (ctx : CtxState) (t : Transaction) (w : @World B) :
  isBlock (blockedList w) (GetTarget t) = true ->
  process_begin t w = (None, exec (process ctx t) w).
Proof.
  intros Hb. unfold_m. simpl. rewrite Hb. simpl.
  destruct (has_room _ _); reflexivity.
Qed.

Lemma process_begin_open (t : Transaction) (w : @World B) :
  isBlock (blockedList w) (GetTarget t) = false ->
  process_begin t w =
    (Some (Client w),
     emit (EvProcess (txid t) (client_id (Client w))) (emit (EvIsBlock (GetTarget t)) w)).
Proof.
  intros Hb. unfold_m. simpl. rewrite Hb. reflexivity.
Qed.

Lemma process_open (ctx : CtxState) (t : Transaction) (w : @World B) :
  isBlock (blockedList w) (GetTarget t) = false ->
  exec (process ctx t) w =
    exec (process_end t (Process t ctx (config w) (Client w)))
      (emit (EvProcess (txid t) (client_id (Client w))) (emit (EvIsBlock (GetTarget t)) w)).
Proof.
  intros Hb. rewrite process_split, (process_begin_open t w Hb). reflexivity.
Qed.

(** A goroutine of [callProcess] that is alone runs to its send on [done];
    what it does to the shared objects is [proc_finish]. *)
Lemma proc_runs (s : @State B) (p : Proc) :
  procs s = [p] ->
  run (proc_sched p (world s)) s =
    Some (set_procs [set_pc PSendDone p] (set_world (proc_finish p (world s)) s)).
Proof.
  intros Hp. destruct s as [w lp sp st ps nd]. simpl in Hp. subst ps.
  destruct p as [d t ctx pc]. unfold proc_sched, proc_finish. simpl.
  destruct pc as [|c|]; simpl.
  - destruct (isBlock (blockedList w) (GetTarget t)) eqn:Hb; norm.
    + rewrite (process_begin_blocked ctx t w Hb). norm. reflexivity.
    + rewrite (process_begin_open t w Hb). norm.
      rewrite (process_open ctx t w Hb). reflexivity.
  - norm. reflexivity.
  - reflexivity.
Qed.

(** A call of [callProcess] that is not preempted: the reset poll, the
    goroutine, the receive on [done], the trailing [cancel()]; the caller
    gets nil. *)
Lemma call_runs_done (who : Caller) (s : @State B) (t : Transaction) :
  call_of who s = Some (CEnter t) -> procs s = [] ->
  let d := nextDone s in
  let w1 := exec poll_reset (world s) in
  run (CallEnter who
         :: proc_sched {| p_done := d; p_tx := t; p_ctx := Live; p_pc := PStart |} w1
         ++ [CallDone who]) s =
    Some (call_returns who None
            {| world := emit (EvCancel d) (exec (process Live t) w1);
               loop := loop s; stopper := stopper s; stopped := stopped s;
               procs := []; nextDone := S d |}).
Proof.
  intros Hc Hp d w1. destruct s as [w lp sp st ps nd]. simpl in *. subst ps.
  rewrite Hc. rewrite run_app.
  match goal with
  | |- context [run (proc_sched ?p _) ?s0] =>
      assert (Hr : run (proc_sched p w1) s0 =
                   Some (set_procs [set_pc PSendDone p]
                           (set_world (proc_finish p (world s0)) s0)))
  end.
  { destruct who; simpl in *;
      match goal with
      | |- run (proc_sched ?p _) ?s0 = _ => apply (proc_runs s0 p); reflexivity
      end. }
  rewrite Hr. clear Hr.
  destruct who; simpl in *.
  - destruct lp as [ | |[t1|t1 d1|t1 d1]| ]; try discriminate.
    norm. reflexivity.
  - destruct sp as [ |b2|b2| |[t2|t2 d2|t2 d2]| ]; try discriminate.
    norm. reflexivity.
Qed.

(** *** The purge is deterministic *)

(** The stop signal received inside [callProcess]: the goroutine runs to
    its end under the cancelled context and the loop returns. *)
Lemma preempt_runs (s : @State B) (t : Transaction) (d : nat) (p : Proc) (purge : bool) :
  loop s = LCall (CWait t d) -> procs s = [p] -> p_done p = d ->
  stopper s = SSend purge ->
  run (CallStop ByLoop
         :: proc_sched (set_ctx Canceled p) (emit (EvCancel d) (world s))
         ++ [CallJoin ByLoop]) s =
    Some {| world := proc_finish (set_ctx Canceled p) (emit (EvCancel d) (world s));
            loop := LReturned; stopper := SWait purge; stopped := true;
            procs := []; nextDone := nextDone s |}.
Proof.
  intros HL HP Hd HS.
  destruct s as [w lp sp st ps nd]. simpl in HL, HP, HS. subst lp ps sp.
  cbn [world nextDone].
  set (p' := set_ctx Canceled p). set (w1 := emit (EvCancel d) w).
  set (s1 := {| world := w1; loop := LCall (CCancelled t d); stopper := SWait purge;
                stopped := st; procs := [p']; nextDone := nd |}).
  assert (Hstep : step (CallStop ByLoop)
                    {| world := w; loop := LCall (CWait t d); stopper := SSend purge;
                       stopped := st; procs := [p]; nextDone := nd |} = Some s1).
  { simpl. rewrite Hd, Nat.eqb_refl. reflexivity. }
  pose proof (proc_runs s1 p' eq_refl) as Hrun.
  rewrite run_cons, Hstep, run_app.
  change (world s1) with w1 in Hrun. rewrite Hrun.
  simpl. rewrite Hd, Nat.eqb_refl. reflexivity.
Qed.

Lemma loop_returned_stays (l : Label) (s s' : @State B) :
  loop s = LReturned -> step l s = Some s' -> loop s' = LReturned.
Proof.
  intros HL Hs. destruct s as [w lp sp st ps nd]. simpl in HL. subst lp.
  destruct l as [t|t| | |b| | | | | | |who|who|who|who|d|d| | |];
    try destruct who; destruct sp; simpl in Hs; try discriminate;
    break_step Hs; try (injection Hs as <-); reflexivity.
Qed.

(** Once the loop has returned, the step of the worker's side is forced. *)
Lemma purge_forced (l : Label) (s s' : @State B) :
  Inv s -> loop s = LReturned -> is_env l = false ->
  step l s = Some s' -> purge_next s = Some l.
Proof.
  intros HI HL He Hs. destruct s as [w lp sp st ps nd].
  unfold Inv, one_proc, purge_next in *. simpl in *. subst lp.
  destruct HI as [Hst HI].
  destruct l as [t|t| | |b| | | | | | |who|who|who|who|d|d| | |];
    try discriminate He;
    try destruct who;
    destruct sp as [ |b2|b2| |[t2|t2 d2|t2 d2]| ];
    simpl in Hs; try discriminate; try contradiction;
    break_hyps; subst; simpl in Hs; try discriminate;
    try reflexivity.
  all: try (destruct (HighPrio w); [discriminate|reflexivity]).
  all: try (destruct (HighPrio w); [reflexivity|discriminate]).
  all: try match type of Hs with
       | context [Nat.eqb ?a ?b] =>
           destruct (Nat.eqb a b) eqn:Heq; [apply Nat.eqb_eq in Heq; subst|discriminate]
       end.
  all: try (destruct (p_pc _); try discriminate; reflexivity).
  all: try (destruct (p_pc _); try discriminate;
            destruct (process_begin _ _); reflexivity).
Qed.

Lemma purge_terminal (l : Label) (s : @State B) :
  Inv s -> loop s = LReturned -> stopper s = SReturned ->
  is_env l = false -> step l s = None.
Proof.
  intros HI HL HS He. destruct (step l s) as [s'|] eqn:Hs; [|reflexivity].
  pose proof (purge_forced l s s' HI HL He Hs) as Hn.
  unfold purge_next in Hn. rewrite HS in Hn. discriminate.
Qed.

Lemma purge_run_unique (sched1 sched2 : list Label) (s s1 s2 : @State B) :
  Inv s -> loop s = LReturned ->
  worker_only sched1 = true -> worker_only sched2 = true ->
  run sched1 s = Some s1 -> run sched2 s = Some s2 ->
  stopper s1 = SReturned -> stopper s2 = SReturned ->
  s1 = s2.
Proof.
  revert sched2 s. induction sched1 as [|l1 r1 IH]; intros sched2 s HI HL W1 W2 R1 R2 E1 E2.
  - simpl in R1. injection R1 as <-.
    destruct sched2 as [|l2 r2]; simpl in R2.
    + injection R2 as <-. reflexivity.
    + simpl in W2. apply andb_prop in W2. destruct W2 as [W2 _].
      apply negb_true_iff in W2.
      rewrite (purge_terminal l2 s HI HL E1 W2) in R2. discriminate.
  - simpl in R1, W1. apply andb_prop in W1. destruct W1 as [W1 W1'].
    apply negb_true_iff in W1.
    destruct (step l1 s) as [sa|] eqn:Ha; [|discriminate].
    destruct sched2 as [|l2 r2]; simpl in R2.
    + injection R2 as <-.
      rewrite (purge_terminal l1 s HI HL E2 W1) in Ha. discriminate.
    + simpl in W2. apply andb_prop in W2. destruct W2 as [W2 W2'].
      apply negb_true_iff in W2.
      destruct (step l2 s) as [sb|] eqn:Hb; [|discriminate].
      pose proof (purge_forced l1 s sa HI HL W1 Ha) as N1.
      pose proof (purge_forced l2 s sb HI HL W2 Hb) as N2.
      rewrite N1 in N2. injection N2 as <-.
      rewrite Ha in Hb. injection Hb as <-.
      apply (IH r2 sa); auto.
      * eapply step_Inv; eauto.
      * eapply loop_returned_stays; eauto.
Qed.

(** *** The purge runs to its end *)

Lemma exec_seq {A C : Type} (m : M A) (k : M C) (w : @World B) :
  exec (bind m (fun _ => k)) w = exec k (exec m w).
Proof. unfold exec, bind. destruct (m w). reflexivity. Qed.

Lemma purge_one_eq (t : Transaction) (rest : list Transaction) (d : nat) (w : @World B) :
  exec (purge_one t rest d) w =
    emit (EvCancel d)
      (exec (process Live t)
         (exec poll_reset (emit (EvLog Debug flushMsg) (set_HighPrio rest w)))).
Proof.
  unfold purge_one. repeat rewrite exec_seq. reflexivity.
Qed.

Lemma process_queues (ctx : CtxState) (t : Transaction) (w : @World B) :
  HighPrio (exec (process ctx t) w) = HighPrio w /\
  LowPrio (exec (process ctx t) w) = LowPrio w.
Proof.
  unfold_m. simpl. destruct (isBlock _ _); simpl.
  - destruct (has_room _ _); auto.
  - destruct (Process _ _ _ _); simpl; [|auto].
    destruct (has_room _ _); auto.
Qed.

Lemma poll_reset_queues (w : @World B) :
  HighPrio (exec poll_reset w) = HighPrio w /\
  LowPrio (exec poll_reset w) = LowPrio w.
Proof.
  unfold_m. simpl. destruct (resetConnectionChan w); auto.
Qed.

Lemma purge_one_queues (t : Transaction) (rest : list Transaction) (d : nat) (w : @World B) :
  HighPrio (exec (purge_one t rest d) w) = rest /\
  LowPrio (exec (purge_one t rest d) w) = LowPrio w.
Proof.
  rewrite purge_one_eq. simpl.
  destruct (process_queues Live t
              (exec poll_reset (emit (EvLog Debug flushMsg) (set_HighPrio rest w)))) as [H1 H2].
  destruct (poll_reset_queues (emit (EvLog Debug flushMsg) (set_HighPrio rest w))) as [H3 H4].
  rewrite H1, H2, H3, H4. auto.
Qed.

Lemma purge_result_queues (ts : list Transaction) (d : nat) (w : @World B) :
  HighPrio w = ts ->
  HighPrio (purge_result ts d w) = [] /\
  LowPrio (purge_result ts d w) = LowPrio w.
Proof.
  revert d w. induction ts as [|t rest IH]; intros d w Hh; simpl.
  - auto.
  - destruct (purge_one_queues t rest d w) as [H1 H2].
    destruct (IH (S d) _ H1) as [H3 H4]. rewrite H3, H4, H2. auto.
Qed.

Lemma purge_runs (ts : list Transaction) (s : @State B) :
  stopper s = SPurge -> procs s = [] -> HighPrio (world s) = ts ->
  worker_only (purge_sched ts (nextDone s) (world s)) = true /\
  run (purge_sched ts (nextDone s) (world s)) s =
    Some {| world := purge_result ts (nextDone s) (world s);
            loop := loop s; stopper := SReturned; stopped := stopped s;
            procs := []; nextDone := nextDone s + List.length ts |}.
Proof.
  revert s. induction ts as [|t rest IH]; intros s HS HP HH.
  - destruct s as [w lp sp st ps nd]. simpl in *. subst. rewrite HH.
    rewrite Nat.add_0_r. auto.
  - set (s1 := set_stopper (SCall (CEnter t))
                 (set_world (emit (EvLog Debug flushMsg) (set_HighPrio rest (world s))) s)).
    assert (Hstep : step PurgeHigh s = Some s1).
    { unfold step. rewrite HS, HH. reflexivity. }
    assert (Hc : call_of ByStop s1 = Some (CEnter t)) by reflexivity.
    assert (Hp1 : procs s1 = []) by (simpl; exact HP).
    set (w1 := exec poll_reset
                 (emit (EvLog Debug flushMsg) (set_HighPrio rest (world s)))).
    set (p0 := {| p_done := nextDone s; p_tx := t; p_ctx := Live; p_pc := PStart |}).
    set (s2 := {| world := emit (EvCancel (nextDone s)) (exec (process Live t) w1);
                  loop := loop s; stopper := SPurge; stopped := stopped s;
                  procs := []; nextDone := S (nextDone s) |}).
    assert (Hcall : run (CallEnter ByStop :: proc_sched p0 w1 ++ [CallDone ByStop]) s1
                    = Some s2)
      by exact (call_runs_done ByStop s1 t Hc Hp1).
    assert (Hw2 : world s2 = exec (purge_one t rest (nextDone s)) (world s)).
    { simpl. rewrite purge_one_eq. reflexivity. }
    assert (Hh2 : HighPrio (world s2) = rest).
    { rewrite Hw2. apply purge_one_queues. }
    destruct (IH s2 eq_refl eq_refl Hh2) as [IHw IHr].
    simpl nextDone in IHw, IHr. rewrite Hw2 in IHw, IHr.
    assert (Hsched :
      purge_sched (t :: rest) (nextDone s) (world s) =
      [PurgeHigh] ++ (CallEnter ByStop :: proc_sched p0 w1 ++ [CallDone ByStop])
        ++ purge_sched rest (S (nextDone s))
             (exec (purge_one t rest (nextDone s)) (world s))).
    { cbn [purge_sched]. fold w1 p0. simpl. rewrite <- app_assoc. reflexivity. }
    rewrite Hsched. split.
    + unfold worker_only in *. rewrite !forallb_app. rewrite IHw.
      unfold proc_sched. simpl. rewrite forallb_app.
      destruct (isBlock _ _); reflexivity.
    + rewrite (run_app [PurgeHigh]).
      change (run [PurgeHigh] s) with
        (match step PurgeHigh s with Some s' => Some s' | None => None end).
      rewrite Hstep. rewrite run_app, Hcall, IHr.
      cbn [purge_result]. simpl. rewrite Nat.add_succ_r. reflexivity.
Qed.

Lemma poll_reset_trace (w : @World B) :
  exists evs, trace (exec poll_reset w) = trace w ++ evs /\
              filter is_breaker_check evs = [].
Proof.
  unfold_m. simpl. destruct (resetConnectionChan w); simpl.
  - exists []. rewrite app_nil_r. auto.
  - exists [EvLog Debug resetMsg; EvCloseIdle (client_id (Client w)); EvNewClient (clients w)].
    repeat rewrite <- app_assoc. auto.
Qed.

Lemma process_checks_once (ctx : CtxState) (t : Transaction) (w : @World B) :
  exists evs, trace (exec (process ctx t) w) = trace w ++ evs /\
              filter is_breaker_check evs = [EvIsBlock (GetTarget t)].
Proof.
  pose proof (process_trace ctx t w) as Ht. simpl in Ht.
  eexists. split; [exact Ht|].
  destruct (isBlock _ _).
  - destruct (has_room _ _); reflexivity.
  - destruct (Process _ _ _ _); [|reflexivity].
    destruct (has_room _ _); reflexivity.
Qed.

Lemma purge_result_trace (ts : list Transaction) (d : nat) (w : @World B) :
  exists evs, trace (purge_result ts d w) = trace w ++ evs /\
    filter is_breaker_check evs = map (fun t => EvIsBlock (GetTarget t)) ts.
Proof.
  revert d w. induction ts as [|t rest IH]; intros d w; simpl.
  - exists []. rewrite app_nil_r. auto.
  - destruct (IH (S d) (exec (purge_one t rest d) w)) as [evs2 [H2 F2]].
    rewrite H2. rewrite purge_one_eq. simpl.
    set (wa := emit (EvLog Debug flushMsg) (set_HighPrio rest w)).
    destruct (poll_reset_trace wa) as [ea [Ha Fa]].
    destruct (process_checks_once Live t (exec poll_reset wa)) as [eb [Hb Fb]].
    rewrite Hb, Ha. simpl.
    exists ([EvLog Debug flushMsg] ++ ea ++ eb ++ [EvCancel d] ++ evs2).
    split; [repeat rewrite <- app_assoc; reflexivity|].
    rewrite !filter_app, Fa, Fb, F2. reflexivity.
Qed.

(** C1, as amended: when [Stop(true)] has seen the loop's acknowledgement,
    it receives the transactions held by [HighPrio] one by one without
    blocking and passes each of them once to [callProcess], whose result it
    ignores.  Each one goes through the ordinary [process] step: the
    breaker is consulted once per transaction, a blocked transaction is
    requeued without being executed, a failed one closes the breaker and is
    requeued, a successful one recovers the breaker.  With nothing else
    acting on the channels, the purge runs to the return of [Stop], every
    such run ends in the same state [purge_result], [HighPrio] is empty
    then and [LowPrio] is as it was. *)
Theorem purge_processes_each_drained_transaction (s : @State B) :
  Inv s -> loop s = LReturned -> stopper s = SPurge ->
  let ts := HighPrio (world s) in
  let w' := purge_result ts (nextDone s) (world s) in
  (exists sched s',
     worker_only sched = true /\ run sched s = Some s' /\ stopper s' = SReturned) /\
  (forall sched s',
     worker_only sched = true -> run sched s = Some s' -> stopper s' = SReturned ->
     world s' = w' /\ procs s' = []) /\
  HighPrio w' = [] /\
  LowPrio w' = LowPrio (world s) /\
  filter is_breaker_check (new_events (world s) w') =
    map (fun t => EvIsBlock (GetTarget t)) ts.
Proof.
  intros HI HL HS ts w'.
  assert (HP : procs s = []).
  { unfold Inv in HI. rewrite HL, HS in HI. tauto. }
  destruct (purge_runs ts s HS HP eq_refl) as [Hw Hr].
  split; [|split; [|split; [|split]]].
  - eexists. eexists. split; [exact Hw|]. split; [exact Hr|]. reflexivity.
  - intros sched s' W R E.
    assert (Heq : s' = {| world := w'; loop := loop s; stopper := SReturned;
                          stopped := stopped s; procs := [];
                          nextDone := nextDone s + List.length ts |}).
    { apply (purge_run_unique sched (purge_sched ts (nextDone s) (world s)) s);
        auto. }
    rewrite Heq. auto.
  - apply purge_result_queues. reflexivity.
  - apply purge_result_queues. reflexivity.
  - destruct (purge_result_trace ts (nextDone s) (world s)) as [evs [Ht Hf]].
    fold w' in Ht. rewrite (new_events_app _ _ _ Ht). exact Hf.
Qed.

(** C2, as amended: when the stop signal preempts a call of [callProcess]
    made by the loop, [callProcess] cancels the context, waits for the
    goroutine and returns an error, so that the loop returns and closes
    [stopped].  [callProcess] itself sends nothing to the sink and does not
    touch the breaker, but the goroutine of the in-flight transaction runs
    its [process] step to the end, under the cancelled context: the
    transaction is requeued when its target is blocked, the breaker is
    closed and the transaction requeued when [Process] returns an error,
    the breaker is recovered when [Process] returns nil. *)
Theorem preempted_call_finishes_process
    (s : @State B) (t : Transaction) (d : nat) (p : Proc) (purge : bool) :
  loop s = LCall (CWait t d) -> procs s = [p] -> p_done p = d ->
  stopper s = SSend purge ->
  let p' := set_ctx Canceled p in
  let w1 := emit (EvCancel d) (world s) in
  exists s',
    run (CallStop ByLoop :: proc_sched p' w1 ++ [CallJoin ByLoop]) s = Some s' /\
    loop s' = LReturned /\ stopped s' = true /\ procs s' = [] /\
    stopper s' = SWait purge /\
    world s' = proc_finish p' w1 /\
    (p_pc p = PStart ->
     world s' = exec (process Canceled (p_tx p)) w1 /\
     blockedList (world s') =
       if isBlock (blockedList (world s)) (GetTarget (p_tx p))
       then blockedList (world s)
       else match Process (p_tx p) Canceled (config (world s)) (Client (world s)) with
            | Some _ => close (blockedList (world s)) (GetTarget (p_tx p))
            | None => recover (blockedList (world s)) (GetTarget (p_tx p))
            end).
Proof.
  intros HL HP Hd HS.
  destruct s as [w lp sp st ps nd]. simpl in HL, HP, HS. subst lp ps sp.
  cbn [world]. cbv zeta.
  set (p' := set_ctx Canceled p). set (w1 := emit (EvCancel d) w).
  set (s1 := {| world := w1; loop := LCall (CCancelled t d); stopper := SWait purge;
                stopped := st; procs := [p']; nextDone := nd |}).
  assert (Hstep : step (CallStop ByLoop)
                    {| world := w; loop := LCall (CWait t d); stopper := SSend purge;
                       stopped := st; procs := [p]; nextDone := nd |} = Some s1).
  { simpl. rewrite Hd, Nat.eqb_refl. reflexivity. }
  pose proof (proc_runs s1 p' eq_refl) as Hrun.
  exists {| world := proc_finish p' w1; loop := LReturned; stopper := SWait purge;
            stopped := true; procs := []; nextDone := nd |}.
  split.
  - rewrite run_cons, Hstep, run_app.
    change (world s1) with w1 in Hrun. rewrite Hrun.
    simpl. rewrite Hd, Nat.eqb_refl. reflexivity.
  - repeat (split; [reflexivity|]).
    intros Hpc. unfold proc_finish. simpl. rewrite Hpc. split; [reflexivity|].
    rewrite process_breaker. reflexivity.
Qed.

(** C3: when the stop signal fires while a transaction is in flight,
    [callProcess] cancels the context of the execution and waits: as long
    as the loop is at the receive on [done] that follows [cancel()], the
    goroutine of the execution is alive with a cancelled context,
    [stopped] is not closed and [Stop] has not returned; the loop leaves
    that place only when the goroutine has returned from [process].  Once
    [Stop] has returned, the loop has returned and no execution is left. *)
Theorem stop_waits_for_execution (w0 : @World B) (s : @State B) :
  reachable w0 s ->
  (forall t d, loop s = LCall (CCancelled t d) ->
     (exists p, procs s = [p] /\ p_done p = d /\ p_tx p = t /\ p_ctx p = Canceled) /\
     stopped s = false /\
     (exists purge, stopper s = SWait purge) /\
     step StopAck s = None /\
     (forall s', step (CallJoin ByLoop) s = Some s' ->
        exists p, procs s = [p] /\ p_pc p = PSendDone /\ procs s' = [])) /\
  (stopped s = true -> loop s = LReturned) /\
  (stopper s = SReturned -> loop s = LReturned /\ procs s = []).
Proof.
  intros Hr. pose proof (reachable_Inv w0 s Hr) as HI.
  destruct s as [w lp sp st ps nd].
  unfold Inv, one_proc, stop_not_received in HI. simpl in *.
  split; [|split].
  - intros t d HL. subst lp. destruct HI as [[p [Hp [Hd [Ht Hc]]]] [Hst [purge Hsp]]].
    subst ps sp st. split; [exists p; auto|].
    split; [reflexivity|]. split; [exists purge; reflexivity|].
    split; [reflexivity|].
    intros s' Hs. simpl in Hs. rewrite Hd, Nat.eqb_refl in Hs.
    destruct (p_pc p) eqn:Hpc; try discriminate.
    injection Hs as <-.
    exists p. split; [reflexivity|]. split; [exact Hpc|].
    simpl. rewrite ?Hd, ?Nat.eqb_refl. reflexivity.
  - intros Hst. subst st.
    destruct lp as [ | |[t1|t1 d1|t1 d1]| ]; break_hyps; try discriminate; reflexivity.
  - intros Hsp. subst sp.
    destruct lp as [ | |[t1|t1 d1|t1 d1]| ]; break_hyps; try discriminate; auto.
Qed.

(** C4: each iteration of the loop first polls [HighPrio] without
    blocking: an available transaction is taken for execution, and the
    loop falls through to its second select exactly when [HighPrio] is
    empty and no stop is pending; the loop leaves the first select only by
    taking the head of [HighPrio], by receiving a pending stop signal, or
    by falling through, and [LowPrio] is not read there.  The second
    select waits on [HighPrio], [LowPrio] and the stop signal: each case
    can be chosen exactly when it is ready, so that with both queues ready
    either a high or a low transaction may be taken; and the second select
    is entered from the first one only. *)
Theorem scheduling_discipline (s : @State B) :
  (loop s = LSelect1 ->
     (forall t h, HighPrio (world s) = t :: h ->
        step LoopHigh1 s =
          Some (set_loop (LCall (CEnter t)) (set_world (set_HighPrio h (world s)) s)) /\
        step LoopDefault1 s = None) /\
     (step LoopDefault1 s = Some (set_loop LSelect2 s) <->
        HighPrio (world s) = [] /\ stop_pending s = false) /\
     (step LoopStop1 s <> None <-> stop_pending s = true) /\
     (forall l s', step l s = Some s' -> loop s' <> LSelect1 ->
        (l = LoopHigh1 /\
         exists t h, HighPrio (world s) = t :: h /\ loop s' = LCall (CEnter t) /\
                     LowPrio (world s') = LowPrio (world s)) \/
        (l = LoopStop1 /\ stop_pending s = true /\ loop s' = LReturned) \/
        (l = LoopDefault1 /\ HighPrio (world s) = [] /\ stop_pending s = false /\
         loop s' = LSelect2))) /\
  (loop s = LSelect2 ->
     (step LoopHigh2 s <> None <-> HighPrio (world s) <> []) /\
     (step LoopLow2 s <> None <-> LowPrio (world s) <> []) /\
     (step LoopStop2 s <> None <-> stop_pending s = true) /\
     (forall t h, HighPrio (world s) = t :: h ->
        step LoopHigh2 s =
          Some (set_loop (LCall (CEnter t)) (set_world (set_HighPrio h (world s)) s))) /\
     (forall t r, LowPrio (world s) = t :: r ->
        step LoopLow2 s =
          Some (set_loop (LCall (CEnter t)) (set_world (set_LowPrio r (world s)) s)))) /\
  (forall l s', step l s = Some s' -> loop s' = LSelect2 ->
     loop s = LSelect2 \/
     (loop s = LSelect1 /\ l = LoopDefault1 /\
      HighPrio (world s) = [] /\ stop_pending s = false)).
Proof.
  destruct s as [w lp sp st ps nd]. unfold stop_pending. simpl.
  split; [|split].
  - intros HL. subst lp. split; [|split; [|split]].
    + intros t h Hh. rewrite Hh. split; reflexivity.
    + split.
      * intros Hs. destruct (HighPrio w); [|discriminate].
        split; [reflexivity|]. destruct sp; try reflexivity; discriminate.
      * intros [Hh Hp]. rewrite Hh. destruct sp; try discriminate; reflexivity.
    + split.
      * destruct sp; simpl; congruence.
      * intros Hp. destruct sp; simpl; congruence.
    + intros l s' Hs HL'.
      destruct l as [t|t| | |b| | | | | | |who|who|who|who|d|d| | |];
        try destruct who;
        destruct sp as [ |b2|b2| |[t2|t2 d2|t2 d2]| ];
        simpl in Hs; try discriminate;
        break_step Hs; try (injection Hs as <-); simpl in HL';
        try (exfalso; apply HL'; reflexivity);
        simpl; eauto 12.
  - intros HL. subst lp. repeat split.
    + destruct (HighPrio w); congruence.
    + intros Hh. destruct (HighPrio w); congruence.
    + destruct (LowPrio w); congruence.
    + intros Hh. destruct (LowPrio w); congruence.
    + destruct sp; simpl; congruence.
    + intros Hp. destruct sp; simpl; congruence.
    + intros t h Hh. rewrite Hh. reflexivity.
    + intros t r Hh. rewrite Hh. reflexivity.
  - intros l s' Hs HL'.
    destruct l as [t|t| | |b| | | | | | |who|who|who|who|d|d| | |];
      try destruct who;
      destruct lp as [ | |[t1|t1 d1|t1 d1]| ];
      destruct sp as [ |b2|b2| |[t2|t2 d2|t2 d2]| ];
      simpl in Hs; try discriminate; auto;
      break_step Hs; try (injection Hs as <-); simpl in HL'; try discriminate;
      auto.
Qed.

(** C5: [callProcess] returns an error to the loop, which makes the loop
    return, if and only if its select received the stop signal; when it
    received [done] it returns nil and the loop continues with its next
    iteration, whatever [process] did (remote rejection, blocked target,
    requeue or drop).  While the loop is inside the call, the receive that
    follows [cancel()] ends the call with the error, the loop returns and
    closes [stopped]; the case [<-done] ends it with nil, the loop is back
    at its first select; every other step leaves the loop inside the call.
    The call can only be at its cancelled place after receiving the stop
    signal from a pending [Stop].  A call preempted in a reachable state
    does return the error: the goroutine runs to its end, the receive on
    [done] is then enabled (the nil return is not), and the loop has
    returned for good. *)
Theorem callProcess_error_iff_preempted :
  (forall (s s' : @State B) (l : Label) (c : CallPc),
     loop s = LCall c -> step l s = Some s' ->
     (l = CallJoin ByLoop /\ loop s' = LReturned /\ stopped s' = true /\
      exists t d, c = CCancelled t d) \/
     (l = CallDone ByLoop /\ loop s' = LSelect1 /\ stopped s' = stopped s /\
      exists t d, c = CWait t d) \/
     (l <> CallJoin ByLoop /\ l <> CallDone ByLoop /\ exists c', loop s' = LCall c')) /\
  (forall (s s' : @State B) (l : Label) (t : Transaction) (d : nat),
     step l s = Some s' -> loop s' = LCall (CCancelled t d) ->
     loop s = LCall (CCancelled t d) \/
     (loop s = LCall (CWait t d) /\ l = CallStop ByLoop /\ stop_pending s = true)) /\
  (forall (w0 : @World B) (s : @State B) (t : Transaction) (d : nat) (purge : bool),
     reachable w0 s -> loop s = LCall (CWait t d) -> stopper s = SSend purge ->
     exists p s',
       procs s = [p] /\
       run (CallStop ByLoop
              :: proc_sched (set_ctx Canceled p) (emit (EvCancel d) (world s))
              ++ [CallJoin ByLoop]) s = Some s' /\
       loop s' = LReturned /\ stopped s' = true /\ procs s' = [] /\
       (forall l s2, step l s' = Some s2 -> loop s2 = LReturned)) /\
  (forall (w0 : @World B) (s : @State B) (t : Transaction) (d : nat),
     reachable w0 s -> loop s = LCall (CCancelled t d) ->
     step (CallDone ByLoop) s = None /\
     exists p,
       procs s = [p] /\
       (p_pc p = PSendDone ->
        exists s', step (CallJoin ByLoop) s = Some s' /\
                   loop s' = LReturned /\ stopped s' = true)) /\
  (forall (s : @State B) (t : Transaction),
     loop s = LCall (CEnter t) -> procs s = [] ->
     exists s',
       run (CallEnter ByLoop
              :: proc_sched {| p_done := nextDone s; p_tx := t; p_ctx := Live;
                               p_pc := PStart |} (exec poll_reset (world s))
              ++ [CallDone ByLoop]) s = Some s' /\
       loop s' = LSelect1 /\ stopped s' = stopped s /\
       world s' = emit (EvCancel (nextDone s))
                    (exec (process Live t) (exec poll_reset (world s)))).
Proof.
  split; [|split; [|split; [|split]]].
  - intros s s' l c HL Hs. destruct s as [w lp sp st ps nd]. simpl in *. subst lp.
    destruct l as [t|t| | |b| | | | | | |who|who|who|who|d|d| | |];
      try destruct who;
      destruct c as [t1|t1 d1|t1 d1];
      destruct sp as [ |b2|b2| |[t2|t2 d2|t2 d2]| ];
      simpl in Hs; try discriminate;
      break_step Hs; try (injection Hs as <-); simpl;
      first [ left; split; [reflexivity|]; split; [reflexivity|];
              split; [reflexivity|]; eauto
            | right; left; split; [reflexivity|]; split; [reflexivity|];
              split; [reflexivity|]; eauto
            | right; right; split; [discriminate|]; split; [discriminate|]; eauto ].
  - intros s s' l t d Hs HL'. destruct s as [w lp sp st ps nd].
    unfold stop_pending. simpl in *.
    destruct l as [t0|t0| | |b| | | | | | |who|who|who|who|d0|d0| | |];
      try destruct who;
      destruct lp as [ | |[t1|t1 d1|t1 d1]| ];
      destruct sp as [ |b2|b2| |[t2|t2 d2|t2 d2]| ];
      simpl in Hs; try discriminate;
      break_step Hs; try (injection Hs as <-); simpl in HL'; try discriminate;
      try (injection HL' as <- <-); auto.
  - intros w0 s t d purge Hr HL HS.
    pose proof (reachable_Inv w0 s Hr) as HI. unfold Inv in HI. rewrite HL in HI.
    destruct HI as [[p [HP [Hd _]]] _].
    exists p. eexists. split; [exact HP|].
    split; [exact (preempt_runs s t d p purge HL HP Hd HS)|].
    split; [reflexivity|]. split; [reflexivity|]. split; [reflexivity|].
    intros l s2 Hs2. eapply loop_returned_stays; [|exact Hs2]. reflexivity.
  - intros w0 s t d Hr HL.
    pose proof (reachable_Inv w0 s Hr) as HI. unfold Inv in HI. rewrite HL in HI.
    destruct HI as [[p [HP [Hd _]]] _].
    destruct s as [w lp sp st ps nd]. simpl in HL, HP. subst lp ps.
    split; [reflexivity|].
    exists p. split; [reflexivity|]. intros Hpc.
    eexists. split.
    + simpl. rewrite Hd, Nat.eqb_refl, Hpc. reflexivity.
    + split; reflexivity.
  - intros s t HL HP.
    assert (Hc : call_of ByLoop s = Some (CEnter t)).
    { unfold call_of. rewrite HL. reflexivity. }
    pose proof (call_runs_done ByLoop s t Hc HP) as Hrun. cbv zeta in Hrun.
    eexists. split; [exact Hrun|]. simpl. auto.
Qed.

(** *** Connection resets *)


Lemma process_begin_client (t : Transaction) (w : @World B) :
  Client (snd (process_begin t w)) = Client w.
Proof.
  unfold_m. simpl. destruct (isBlock _ _); simpl; [|reflexivity].
  destruct (has_room _ _); reflexivity.
Qed.

Lemma process_end_client (t : Transaction) (err : option string) (w : @World B) :
  Client (exec (process_end t err) w) = Client w.
Proof.
  unfold_m. destruct err; simpl; [|reflexivity].
  destruct (has_room _ _); reflexivity.
Qed.




End SystemProofs.

(** * Examples *)

(** C1, as stated, fails: with one rejected transaction queued, the purge
    of [Stop(true)] closes the breaker on its target and requeues it. *)
Lemma purge_requeues_and_closes_counterexample :
  ~ purge_spares_sink_and_breaker purge_cex_state purge_cex_sched.
Proof.
  intros H.
  assert (Hrun : run purge_cex_sched purge_cex_state =
                 Some (final purge_cex_sched purge_cex_state))
    by (vm_compute; reflexivity).
  specialize (H _ Hrun eq_refl (EvClose "intake")).
  assert (Hin : In (EvClose "intake")
                  (new_events (world purge_cex_state)
                     (world (final purge_cex_sched purge_cex_state))))
    by (vm_compute; auto 10).
  destruct (H Hin) as [_ Hb]. discriminate Hb.
Qed.

(** C1, as amended, on three queued transactions and one low-priority one. *)
Lemma purge_processes_each_drained_transaction_witness :
  Inv purge3_state /\ loop purge3_state = LReturned /\ stopper purge3_state = SPurge /\
  forall sched s',
    worker_only sched = true -> run sched purge3_state = Some s' ->
    stopper s' = SReturned ->
    world s' = purge_result (HighPrio (world purge3_state)) (nextDone purge3_state)
                 (world purge3_state) /\
    procs s' = [].
Proof.
  assert (HI : Inv purge3_state) by (vm_compute; auto).
  split; [exact HI|]. split; [reflexivity|]. split; [reflexivity|].
  exact (proj1 (proj2
    (purge_processes_each_drained_transaction purge3_state HI eq_refl eq_refl))).
Defined.

(** C2, as stated, fails: a transaction preempted by [Stop(false)] whose
    [Process] fails on cancellation is closed in the breaker and requeued
    before the loop returns. *)
Lemma preemption_requeues_and_closes_counterexample :
  ~ preemption_spares_sink_and_breaker preempt_cex_state preempt_cex_sched.
Proof.
  intros H.
  assert (Hrun : run (CallStop ByLoop :: preempt_cex_sched) preempt_cex_state =
                 Some (final (CallStop ByLoop :: preempt_cex_sched) preempt_cex_state))
    by (vm_compute; reflexivity).
  specialize (H _ Hrun eq_refl (EvClose "intake")).
  assert (Hin : In (EvClose "intake")
                  (new_events (world preempt_cex_state)
                     (world (final (CallStop ByLoop :: preempt_cex_sched)
                               preempt_cex_state))))
    by (vm_compute; auto 10).
  destruct (H Hin) as [_ Hb]. discriminate Hb.
Qed.

(** C2, as amended, on that same preempted transaction. *)
Lemma preempted_call_finishes_process_witness :
  loop preempt_cex_state = LCall (CWait (tx_ctx 1) 0) /\
  procs preempt_cex_state = [preempt_proc] /\
  p_done preempt_proc = 0 /\
  stopper preempt_cex_state = SSend false /\
  exists s',
    run (CallStop ByLoop :: preempt_cex_sched) preempt_cex_state = Some s' /\
    loop s' = LReturned /\ stopped s' = true /\
    RequeueChan (world s') = [tx_ctx 1].
Proof.
  split; [reflexivity|]. split; [reflexivity|]. split; [reflexivity|].
  split; [reflexivity|].
  destruct (preempted_call_finishes_process preempt_cex_state (tx_ctx 1) 0
              preempt_proc false eq_refl eq_refl eq_refl eq_refl)
    as [s' [Hrun [HL [Hst [_ [_ [Hw _]]]]]]].
  exists s'. split; [exact Hrun|]. split; [exact HL|]. split; [exact Hst|].
  rewrite Hw. reflexivity.
Defined.

(** C3 on a whole run of [Stop(false)] against a transaction in flight. *)
Lemma stop_waits_for_execution_witness :
  reachable stop_run_world (final stop_run_sched (Start stop_run_world)) /\
  stopper (final stop_run_sched (Start stop_run_world)) = SReturned /\
  loop (final stop_run_sched (Start stop_run_world)) = LReturned /\
  procs (final stop_run_sched (Start stop_run_world)) = [].
Proof.
  assert (Hr : reachable stop_run_world (final stop_run_sched (Start stop_run_world)))
    by (exists stop_run_sched; vm_compute; reflexivity).
  split; [exact Hr|]. split; [reflexivity|].
  exact (proj2 (proj2 (stop_waits_for_execution stop_run_world _ Hr)) eq_refl).
Defined.

(** C4 at the second select with both queues ready: either may be taken. *)
Lemma scheduling_discipline_witness :
  loop both_ready_state = LSelect2 /\
  step LoopHigh2 both_ready_state <> None /\
  step LoopLow2 both_ready_state <> None.
Proof.
  split; [reflexivity|].
  destruct (proj1 (proj2 (scheduling_discipline both_ready_state)) eq_refl)
    as [Hh [Hl _]].
  split.
  - apply Hh. vm_compute. discriminate.
  - apply Hl. vm_compute. discriminate.
Defined.

(** C5 on [Stop(false)] against a transaction in flight, where the call
    returns the error and the loop returns, and on a rejected transaction
    dropped on a full sink, where the call returns nil and the loop
    continues. *)
Lemma callProcess_error_iff_preempted_witness :
  (reachable stop_run_world preempt_cex_state /\
   loop preempt_cex_state = LCall (CWait (tx_ctx 1) 0) /\
   stopper preempt_cex_state = SSend false /\
   exists s',
     run [CallStop ByLoop; ProcReturn 0; CallJoin ByLoop] preempt_cex_state = Some s' /\
     loop s' = LReturned /\ stopped s' = true) /\
  (loop drop_state = LCall (CEnter (tx_fail 1)) /\
   procs drop_state = [] /\
   exists s',
     run [CallEnter ByLoop; ProcBegin 0; ProcReturn 0; CallDone ByLoop] drop_state
       = Some s' /\
     loop s' = LSelect1 /\
     In (EvLog Error dropMsg) (trace (world s'))).
Proof.
  assert (Hr : reachable stop_run_world preempt_cex_state)
    by (exists [LoopHigh1; CallEnter ByLoop; ProcBegin 0; DoStop false];
        vm_compute; reflexivity).
  split.
  - split; [exact Hr|]. split; [reflexivity|]. split; [reflexivity|].
    destruct (proj1 (proj2 (proj2 (@callProcess_error_iff_preempted CountingBreaker _)))
                stop_run_world preempt_cex_state (tx_ctx 1) 0 false Hr eq_refl eq_refl)
      as [p [s' [Hp [Hrun [HL [Hst _]]]]]].
    vm_compute in Hp. injection Hp as Hp. subst p.
    exists s'. split; [exact Hrun|]. split; [exact HL|exact Hst].
  - split; [reflexivity|]. split; [reflexivity|].
    destruct (proj2 (proj2 (proj2 (proj2 (@callProcess_error_iff_preempted CountingBreaker _))))
                drop_state (tx_fail 1) eq_refl eq_refl)
      as [s' [Hrun [HL [_ Hw]]]].
    exists s'. split; [exact Hrun|]. split; [exact HL|].
    rewrite Hw. vm_compute. auto 10.
Defined.

(** C6 on a worker whose breaker blocks the intake. *)
Lemma blocked_target_is_requeued_without_call_witness :
  isBlock (blockedList w_blocked) (GetTarget (tx_ok 1)) = true /\
  fst (process_begin (tx_ok 1) w_blocked) = None /\
  RequeueChan (exec (process Live (tx_ok 1)) w_blocked) = [tx_ok 1].
Proof.
  split; [reflexivity|].
  pose proof (blocked_target_is_requeued_without_call Live (tx_ok 1) w_blocked eq_refl)
    as [Hb [_ Hq]].
  split; [exact Hb|]. exact (proj1 Hq).
Defined.

(** C7 on a sink of capacity 0: the failed transaction is dropped, with
    the drop logged. *)
Lemma requeue_never_blocks_witness :
  isBlock (blockedList w_full) (GetTarget (tx_fail 1)) = false /\
  RequeueChan (exec (process Live (tx_fail 1)) w_full) = [] /\
  In (EvLog Error dropMsg) (new_events w_full (exec (process Live (tx_fail 1)) w_full)).
Proof.
  split; [reflexivity|].
  assert (Hfb : isBlock (blockedList w_full) (GetTarget (tx_fail 1)) = true \/
                (isBlock (blockedList w_full) (GetTarget (tx_fail 1)) = false /\
                 exists e, Process (tx_fail 1) Live (config w_full) (Client w_full) = Some e)).
  { right. split; [reflexivity|]. exists "status 500". reflexivity. }
  pose proof (proj1 (@requeue_never_blocks CountingBreaker _) Live (tx_fail 1) w_full Hfb)
    as H.
  exact (conj (proj1 H) (proj1 (proj2 H))).
Defined.

(** C10 on a worker whose breaker blocks the intake. *)
Lemma blocked_target_leaves_breaker_witness :
  isBlock (blockedList w_blocked) (GetTarget (tx_ok 1)) = true /\
  blockedList (exec (process Live (tx_ok 1)) w_blocked) = breaker_open.
Proof.
  split; [reflexivity|].
  exact (proj1 (blocked_target_leaves_breaker Live (tx_ok 1) w_blocked eq_refl)).
Defined.


(** * The worker: further properties *)

Section WorkerFacts.

Context {B : Type} {breaker : Breaker B}.




(** X2: a scheduled connection reset is applied before the next
    transaction is sent: when a reset is pending, [callProcess] closes the
    idle connections of the old client, makes a new client, and only then
    runs [process], which hands that new client to [Process]; the outcome
    of the transaction is the one [Process] gives on the new client. *)
Theorem reset_applies_to_next_transaction
    (ctx : CtxState) (t : Transaction) (w : @World B) (n : nat) :
  resetConnectionChan w = S n ->
  isBlock (blockedList w) (GetTarget t) = false ->
  let fresh := {| client_id := clients w;
                  Timeout := wrap64 (forwarder_timeout (config w) * Second) |} in
  let w1 := exec poll_reset w in
  let w2 := exec (process ctx t) w1 in
  Client w1 = fresh /\ resetConnectionChan w1 = n /\ Client w2 = fresh /\
  (exists rest,
     new_events w w2 =
       [EvLog Debug resetMsg; EvCloseIdle (client_id (Client w));
        EvNewClient (clients w); EvIsBlock (GetTarget t);
        EvProcess (txid t) (clients w)] ++ rest) /\
  blockedList w2 =
    match Process t ctx (config w) fresh with
    | Some _ => close (blockedList w) (GetTarget t)
    | None => recover (blockedList w) (GetTarget t)
    end.
Proof.
  intros Hr Hb fresh w1 w2.
  assert (Hw1 : w1 = set_Client fresh
                       (emit (EvNewClient (clients w))
                          (set_clients (S (clients w))
                             (emit (EvCloseIdle (client_id (Client w)))
                                (emit (EvLog Debug resetMsg)
                                   (set_resetConnectionChan n w)))))).
  { unfold w1. unfold_m. simpl. rewrite Hr. reflexivity. }
  assert (Hb1 : isBlock (blockedList w1) (GetTarget t) = false)
    by (rewrite Hw1; exact Hb).
  split; [rewrite Hw1; reflexivity|]. split; [rewrite Hw1; reflexivity|].
  pose proof (process_trace ctx t w1) as Ht.
  pose proof (process_breaker ctx t w1) as Hbr.
  simpl in Ht. fold w2 in Ht, Hbr. rewrite Hb1 in Ht, Hbr.
  assert (Hc : Client w2 = Client w1).
  { unfold w2. rewrite (process_open ctx t w1 Hb1), process_end_client. reflexivity. }
  split; [rewrite Hc, Hw1; reflexivity|].
  assert (Hcfg : config w1 = config w) by (rewrite Hw1; reflexivity).
  assert (Hcl : Client w1 = fresh) by (rewrite Hw1; reflexivity).
  assert (Hbl : blockedList w1 = blockedList w) by (rewrite Hw1; reflexivity).
  assert (Htr : trace w1 = trace w ++ [EvLog Debug resetMsg;
                                       EvCloseIdle (client_id (Client w));
                                       EvNewClient (clients w)]).
  { rewrite Hw1. simpl. repeat rewrite <- app_assoc. reflexivity. }
  rewrite Hcfg, Hcl in Ht. rewrite Hcfg, Hcl, Hbl in Hbr. split; [|exact Hbr].
  rewrite Htr in Ht.
  destruct (Process t ctx (config w) fresh) as [e|]; eexists;
    apply new_events_app; rewrite Ht; repeat rewrite <- app_assoc; simpl; reflexivity.
Qed.

Ltac break_hyps :=
  repeat match goal with
  | H : _ /\ _ |- _ => destruct H
  | H : exists _, _ |- _ => destruct H
  | H : False |- _ => contradiction
  | H : _ \/ _ |- _ => destruct H
  end.

Ltac break_step Hs :=
  repeat match type of Hs with
  | context [match ?x with _ => _ end] => destruct x eqn:?; try discriminate
  end.

(** X3: at most one execution is in flight: in every reachable state there
    is at most one goroutine of [callProcess], and a goroutine is alive
    only while its caller, the loop or the purge of [Stop], is blocked
    inside that very call of [callProcess]. *)
Theorem at_most_one_execution (w0 : @World B) (s : @State B) :
  reachable w0 s ->
  List.length (procs s) <= 1 /\
  forall p, In p (procs s) ->
    exists who,
      call_of who s = Some (CWait (p_tx p) (p_done p)) \/
      call_of who s = Some (CCancelled (p_tx p) (p_done p)).
Proof.
  intros Hr. pose proof (reachable_Inv w0 s Hr) as HI.
  destruct s as [w lp sp st ps nd].
  unfold Inv, one_proc, stop_not_received in HI. simpl in *.
  destruct lp as [ | |[t1|t1 d1|t1 d1]| ];
    try destruct sp as [ |b2|b2| |[t2|t2 d2|t2 d2]| ];
    break_hyps; subst; simpl; try discriminate;
    (split; [lia|]); intros p0 Hin; simpl in Hin;
    try contradiction; destruct Hin as [<-|[]];
    first [ exists ByLoop; simpl; auto; fail | exists ByStop; simpl; auto ].
Qed.

(** X4: once the loop has returned, the worker reads no queue any more,
    except for the purge of [Stop(true)] which receives from [HighPrio]:
    no step of the worker changes [LowPrio], only the receive of the purge
    changes [HighPrio], and after [Stop(false)] the purge is never
    entered. *)
Theorem queues_after_stop (w0 : @World B) (s s' : @State B) (l : Label) :
  reachable w0 s -> loop s = LReturned -> is_env l = false ->
  step l s = Some s' ->
  LowPrio (world s') = LowPrio (world s) /\
  (HighPrio (world s') = HighPrio (world s) \/
   (l = PurgeHigh /\ stopper s = SPurge /\
    exists t, HighPrio (world s) = t :: HighPrio (world s'))) /\
  (stopper s = SWait false -> stopper s' = SReturned) /\
  (stopper s = SReturned -> False).
Proof.
  intros Hr HL He Hs.
  pose proof (reachable_Inv w0 s Hr) as HI.
  pose proof (purge_forced l s s' HI HL He Hs) as Hn.
  destruct s as [w lp sp st ps nd].
  unfold Inv, one_proc, purge_next in *. simpl in *. subst lp.
  destruct HI as [Hst HI].
  destruct sp as [ |b2|b2| |[t2|t2 d2|t2 d2]| ]; try contradiction; try discriminate.
  - injection Hn as <-. simpl in Hs. rewrite Hst in Hs. injection Hs as <-.
    simpl. repeat split; auto; try discriminate.
    intros H. injection H as ->. reflexivity.
  - destruct (HighPrio w) as [|t h] eqn:Hh; injection Hn as <-; simpl in Hs;
      rewrite Hh in Hs; injection Hs as <-; simpl; rewrite ?Hh;
      repeat split; auto; try discriminate.
    right. repeat split; eauto.
  - injection Hn as <-. simpl in Hs. injection Hs as <-. simpl.
    destruct (poll_reset_queues w) as [H1 H2]. rewrite H1, H2.
    repeat split; auto; discriminate.
  - break_hyps. subst ps.
    destruct (p_pc x) eqn:Hpc; injection Hn as <-; simpl in Hs;
      rewrite H0, Nat.eqb_refl, Hpc in Hs.
    + destruct (process_begin (p_tx x) w) as [r w1] eqn:Hpb.
      injection Hs as <-. simpl.
      assert (Hq : HighPrio w1 = HighPrio w /\ LowPrio w1 = LowPrio w).
      { destruct (isBlock (blockedList w) (GetTarget (p_tx x))) eqn:Hb.
        - rewrite (process_begin_blocked Live (p_tx x) w Hb) in Hpb.
          injection Hpb as _ <-. apply process_queues.
        - rewrite (process_begin_open (p_tx x) w Hb) in Hpb.
          injection Hpb as _ <-. auto. }
      destruct Hq as [-> ->]. repeat split; auto; discriminate.
    + injection Hs as <-. simpl.
      assert (Hq : forall err, HighPrio (exec (process_end (p_tx x) err) w) = HighPrio w /\
                               LowPrio (exec (process_end (p_tx x) err) w) = LowPrio w).
      { intros err. unfold_m. destruct err; simpl; [|auto].
        destruct (has_room _ _); auto. }
      destruct (Hq (Process (p_tx x) (p_ctx x) (config w) client)) as [-> ->].
      repeat split; auto; discriminate.
    + injection Hs as <-. simpl. repeat split; auto; discriminate.
Qed.

(** *** [Stop] can always return *)

Lemma proc_sched_worker_only (p : Proc) (w : @World B) :
  worker_only (proc_sched p w) = true.
Proof.
  unfold proc_sched, worker_only. destruct (p_pc p); simpl; [|reflexivity|reflexivity].
  destruct (isBlock _ _); reflexivity.
Qed.

Lemma worker_only_app (a b : list Label) :
  worker_only (a ++ b) = worker_only a && worker_only b.
Proof. unfold worker_only. apply forallb_app. Qed.

(** From the acknowledgement on, [Stop] runs to its return. *)
Lemma ack_runs (s : @State B) (purge : bool) :
  stopper s = SWait purge -> stopped s = true -> procs s = [] ->
  exists sched s',
    worker_only sched = true /\ run sched s = Some s' /\
    stopper s' = SReturned /\ procs s' = [] /\ loop s' = loop s /\
    stopped s' = true.
Proof.
  intros HS Hst HP. destruct purge.
  - set (s1 := set_stopper SPurge s).
    assert (Hstep : step StopAck s = Some s1).
    { unfold step. rewrite HS, Hst. reflexivity. }
    destruct (purge_runs (HighPrio (world s1)) s1 eq_refl HP eq_refl) as [Hw Hr].
    exists (StopAck :: purge_sched (HighPrio (world s1)) (nextDone s1) (world s1)).
    eexists. split; [exact Hw|]. split.
    + rewrite run_cons, Hstep. exact Hr.
    + simpl. auto.
  - exists [StopAck]. eexists. split; [reflexivity|]. split.
    + rewrite run_cons. unfold step. rewrite HS, Hst. reflexivity.
    + simpl. auto.
Qed.

(** X5: [Stop] can always return: from every reachable state in which a
    call of [Stop] is waiting to send the stop signal, the worker's own
    steps, with no help from the rest of the program, bring [Stop] to its
    return, with the loop returned, [stopped] closed and no execution
    left; this holds wherever the loop is, also inside [callProcess]. *)
Theorem stop_can_return (w0 : @World B) (s : @State B) (purge : bool) :
  reachable w0 s -> stopper s = SSend purge ->
  exists sched s',
    worker_only sched = true /\ run sched s = Some s' /\
    stopper s' = SReturned /\ loop s' = LReturned /\ stopped s' = true /\
    procs s' = [].
Proof.
  intros Hr HS. pose proof (reachable_Inv w0 s Hr) as HI.
  assert (Hmid : exists sched s1,
            worker_only sched = true /\ run sched s = Some s1 /\
            stopper s1 = SWait purge /\ stopped s1 = true /\ procs s1 = [] /\
            loop s1 = LReturned).
  { destruct s as [w lp sp st ps nd].
    unfold Inv, one_proc, stop_not_received in HI. simpl in *. subst sp.
    destruct lp as [ | |[t1|t1 d1|t1 d1]| ].
    - exists [LoopStop1]. eexists. split; [reflexivity|]. split; [reflexivity|].
      simpl. tauto.
    - exists [LoopStop2]. eexists. split; [reflexivity|]. split; [reflexivity|].
      simpl. tauto.
    - destruct HI as [HP _]. subst ps.
      set (w1 := exec poll_reset w).
      set (p0 := {| p_done := nd; p_tx := t1; p_ctx := Live; p_pc := PStart |}).
      set (s1 := {| world := w1; loop := LCall (CWait t1 nd); stopper := SSend purge;
                    stopped := st; procs := [p0]; nextDone := S nd |}).
      pose proof (preempt_runs s1 t1 nd p0 purge eq_refl eq_refl eq_refl eq_refl) as Hrun.
      eexists (CallEnter ByLoop :: _). eexists. split; [|split].
      2:{ rewrite run_cons. change (step (CallEnter ByLoop) _) with (Some s1).
          exact Hrun. }
      + unfold worker_only. simpl. fold (worker_only (proc_sched (set_ctx Canceled p0)
                                                        (emit (EvCancel nd) (world s1))
                                                      ++ [CallJoin ByLoop])).
        rewrite worker_only_app, proc_sched_worker_only. reflexivity.
      + simpl. tauto.
    - destruct HI as [[p [Hp [Hd _]]] _]. subst ps.
      pose proof (preempt_runs
                    {| world := w; loop := LCall (CWait t1 d1); stopper := SSend purge;
                       stopped := st; procs := [p]; nextDone := nd |}
                    t1 d1 p purge eq_refl eq_refl Hd eq_refl) as Hrun.
      eexists. eexists. split; [|split; [exact Hrun|simpl; tauto]].
      unfold worker_only. simpl.
      fold (worker_only (proc_sched (set_ctx Canceled p) (emit (EvCancel d1) w)
                           ++ [CallJoin ByLoop])).
      rewrite worker_only_app, proc_sched_worker_only. reflexivity.
    - destruct HI as [_ [_ [b Hb]]]. discriminate.
    - destruct HI as [_ []]. }
  destruct Hmid as [sched1 [s1 [W1 [R1 [S1 [St1 [P1 L1]]]]]]].
  destruct (ack_runs s1 purge S1 St1 P1) as [sched2 [s2 [W2 [R2 [S2 [P2 [L2 St2]]]]]]].
  exists (sched1 ++ sched2), s2.
  split; [rewrite worker_only_app, W1, W2; reflexivity|].
  split; [rewrite run_app, R1; exact R2|].
  rewrite L2, L1. auto.
Qed.

(** *** The order of processing *)

Lemma process_begin_trace (t : Transaction) (w : @World B) :
  exists evs, trace (snd (process_begin t w)) = trace w ++ evs /\
              filter is_breaker_check evs = [EvIsBlock (GetTarget t)].
Proof.
  unfold_m. simpl. destruct (isBlock _ _); simpl.
  - destruct (has_room _ _); simpl; eexists; repeat rewrite <- app_assoc;
      (split; [reflexivity|reflexivity]).
  - eexists. repeat rewrite <- app_assoc. split; reflexivity.
Qed.

Lemma process_end_trace (t : Transaction) (err : option string) (w : @World B) :
  exists evs, trace (exec (process_end t err) w) = trace w ++ evs /\
              filter is_breaker_check evs = [].
Proof.
  unfold_m. destruct err; simpl.
  - destruct (has_room _ _); simpl; eexists; repeat rewrite <- app_assoc;
      (split; [reflexivity|reflexivity]).
  - eexists. repeat rewrite <- app_assoc. split; reflexivity.
Qed.

Lemma in_order_step (w0 : @World B) (l : Label) (s s' : @State B) :
  Inv s -> in_order w0 s -> is_env l = false -> step l s = Some s' ->
  in_order w0 s'.
Proof.
  intros HI [HS [H2 [done [evs [Hq [Ht Hf]]]]]] He Hs.
  destruct s as [w lp sp st ps nd].
  unfold Inv, one_proc, in_order, unchecked in *. simpl in *. subst sp.
  destruct l as [t|t| | |b| | | | | | |who|who|who|who|d|d| | |];
    try discriminate He;
    try destruct who;
    destruct lp as [ | |[t1|t1 d1|t1 d1]| ];
    simpl in Hs; try discriminate; break_hyps; subst; try discriminate;
    simpl in Hs; rewrite ?Nat.eqb_refl in Hs; try discriminate.
  - (* LoopHigh1 *)
    destruct (HighPrio w) as [|t h] eqn:Hh; [discriminate|]. injection Hs as <-.
    simpl. split; [reflexivity|]. split; [discriminate|].
    exists done, evs. auto.
  - (* LoopDefault1 *)
    destruct (HighPrio w) as [|t h] eqn:Hh; [|discriminate]. injection Hs as <-.
    simpl. split; [reflexivity|]. split; [auto|].
    exists done, evs. rewrite Hh. auto.
  - (* LoopHigh2 *)
    rewrite (H2 eq_refl) in Hs. discriminate.
  - (* LoopLow2 *)
    destruct (LowPrio w) as [|t r] eqn:Hl; [discriminate|]. injection Hs as <-.
    simpl. split; [reflexivity|]. split; [discriminate|].
    exists done, evs. rewrite (H2 eq_refl) in *. auto.
  - (* CallEnter ByLoop *)
    injection Hs as <-. simpl. split; [reflexivity|]. split; [discriminate|].
    destruct (poll_reset_trace w) as [ea [Ha Fa]].
    destruct (poll_reset_queues w) as [Q1 Q2].
    exists done, (evs ++ ea). rewrite Q1, Q2, Ha, Ht, filter_app, Fa, Hf, app_nil_r.
    rewrite <- app_assoc. auto.
  - (* CallDone ByLoop *)
    destruct (p_pc x) eqn:Hpc; try discriminate. injection Hs as <-.
    simpl. split; [reflexivity|]. split; [discriminate|].
    exists done, (evs ++ [EvCancel (p_done x)]).
    rewrite Ht, filter_app, Hf, <- app_assoc. simpl. rewrite app_nil_r. auto.
  - (* ProcBegin *)
    simpl in Hs. destruct (Nat.eqb (p_done x) d) eqn:Ed; [|discriminate].
    destruct (p_pc x) eqn:Hpc; try discriminate.
    pose proof (process_begin_trace (p_tx x) w) as [eb [Hb Fb]].
    pose proof (process_begin_client (p_tx x) w) as _.
    assert (Hqs : HighPrio (snd (process_begin (p_tx x) w)) = HighPrio w /\
                  LowPrio (snd (process_begin (p_tx x) w)) = LowPrio w).
    { destruct (isBlock (blockedList w) (GetTarget (p_tx x))) eqn:Hbl.
      - rewrite (process_begin_blocked Live (p_tx x) w Hbl). apply process_queues.
      - rewrite (process_begin_open (p_tx x) w Hbl). auto. }
    destruct (process_begin (p_tx x) w) as [r w1]. simpl in Hb, Hqs.
    destruct Hqs as [Q1 Q2]. injection Hs as <-. simpl. rewrite ?Ed. simpl.
    split; [reflexivity|]. split; [discriminate|].
    exists (done ++ [p_tx x]), (evs ++ eb).
    rewrite Q1, Q2, Hb, Ht, filter_app, Hf, Fb, map_app, <- !app_assoc.
    destruct r; simpl in *; auto.
  - (* ProcReturn *)
    simpl in Hs. destruct (Nat.eqb (p_done x) d) eqn:Ed; [|discriminate].
    destruct (p_pc x) eqn:Hpc; try discriminate. injection Hs as <-.
    destruct (process_end_trace (p_tx x)
                (Process (p_tx x) (p_ctx x) (config w) client) w) as [ee [Hee Fe]].
    assert (Hqs : forall err, HighPrio (exec (process_end (p_tx x) err) w) = HighPrio w /\
                              LowPrio (exec (process_end (p_tx x) err) w) = LowPrio w).
    { intros err. unfold_m. destruct err; simpl; [|auto].
      destruct (has_room _ _); auto. }
    destruct (Hqs (Process (p_tx x) (p_ctx x) (config w) client)) as [Q1 Q2].
    simpl. rewrite ?Ed. simpl.
    split; [reflexivity|]. split; [discriminate|].
    exists done, (evs ++ ee).
    rewrite Q1, Q2, Hee, Ht, filter_app, Hf, Fe, app_nil_r, <- app_assoc. auto.
Qed.

(** X6: left alone (no stop, nothing added to the queues), the loop works
    through the queues in priority order: along any run of the worker from
    [Start], the transactions submitted to the breaker, in the order of
    their submission, are a prefix of the transactions queued, those of
    [HighPrio] first and then those of [LowPrio], each queue first in
    first out, each transaction once. *)
Theorem loop_processes_in_priority_order
    (w0 : @World B) (sched : list Label) (s' : @State B) :
  worker_only sched = true -> run sched (Start w0) = Some s' ->
  exists done rest,
    done ++ rest = HighPrio w0 ++ LowPrio w0 /\
    filter is_breaker_check (new_events w0 (world s')) =
      map (fun t => EvIsBlock (GetTarget t)) done.
Proof.
  intros W R.
  assert (Hgen : forall sched s, Inv s -> in_order w0 s -> worker_only sched = true ->
                                 run sched s = Some s' -> in_order w0 s').
  { clear. induction sched as [|l r IH]; intros s HI HO W R; simpl in R.
    - injection R as <-. exact HO.
    - simpl in W. apply andb_prop in W. destruct W as [Wl Wr].
      apply negb_true_iff in Wl.
      destruct (step l s) as [s1|] eqn:E; [|discriminate].
      apply (IH s1); auto.
      + eapply step_Inv; eauto.
      + eapply in_order_step; eauto. }
  assert (H0 : in_order w0 (Start w0)).
  { split; [reflexivity|]. split; [discriminate|].
    exists [], []. simpl. rewrite app_nil_r. auto. }
  destruct (Hgen sched (Start w0) (Inv_Start w0) H0 W R)
    as [_ [_ [done [evs [Hq [Ht Hf]]]]]].
  exists done, (unchecked s' ++ HighPrio (world s') ++ LowPrio (world s')).
  split; [exact Hq|]. rewrite (new_events_app _ _ _ Ht). exact Hf.
Qed.

(** One call of [callProcess] by the loop, run to its return. *)
Lemma loop_call_runs (s : @State B) (t : Transaction) :
  loop s = LCall (CEnter t) -> procs s = [] ->
  exists sched s',
    worker_only sched = true /\ run sched s = Some s' /\
    loop s' = LSelect1 /\ procs s' = [] /\ stopper s' = stopper s /\
    HighPrio (world s') = HighPrio (world s) /\
    LowPrio (world s') = LowPrio (world s) /\
    exists evs, trace (world s') = trace (world s) ++ evs /\
                filter is_breaker_check evs = [EvIsBlock (GetTarget t)].
Proof.
  intros HL HP.
  assert (Hc : call_of ByLoop s = Some (CEnter t)).
  { unfold call_of. rewrite HL. reflexivity. }
  pose proof (call_runs_done ByLoop s t Hc HP) as Hrun. cbv zeta in Hrun.
  eexists. eexists. split; [|split; [exact Hrun|]].
  - unfold worker_only. simpl.
    fold (worker_only (proc_sched {| p_done := nextDone s; p_tx := t; p_ctx := Live;
                                     p_pc := PStart |} (exec poll_reset (world s))
                         ++ [CallDone ByLoop])).
    rewrite worker_only_app, proc_sched_worker_only. reflexivity.
  - cbn [call_returns set_loop loop procs stopper world].
    destruct (poll_reset_queues (world s)) as [Q1 Q2].
    destruct (process_queues Live t (exec poll_reset (world s))) as [Q3 Q4].
    destruct (poll_reset_trace (world s)) as [ea [Ha Fa]].
    destruct (process_checks_once Live t (exec poll_reset (world s))) as [eb [Hb Fb]].
    repeat (split; [reflexivity|]).
    split; [simpl; rewrite Q3, Q1; reflexivity|].
    split; [simpl; rewrite Q4, Q2; reflexivity|].
    exists (ea ++ eb ++ [EvCancel (nextDone s)]).
    split.
    + simpl. rewrite Hb, Ha. repeat rewrite <- app_assoc. reflexivity.
    + rewrite !filter_app, Fa, Fb. reflexivity.
Qed.

Lemma drain_high (hs : list Transaction) (s : @State B) :
  loop s = LSelect1 -> procs s = [] -> HighPrio (world s) = hs ->
  exists sched s',
    worker_only sched = true /\ run sched s = Some s' /\
    loop s' = LSelect1 /\ procs s' = [] /\ stopper s' = stopper s /\
    HighPrio (world s') = [] /\ LowPrio (world s') = LowPrio (world s) /\
    exists evs, trace (world s') = trace (world s) ++ evs /\
                filter is_breaker_check evs = map (fun t => EvIsBlock (GetTarget t)) hs.
Proof.
  revert s. induction hs as [|t h IH]; intros s HL HP HH.
  - exists [], s. repeat (split; [auto|]). exists []. rewrite app_nil_r. auto.
  - set (s1 := set_loop (LCall (CEnter t)) (set_world (set_HighPrio h (world s)) s)).
    assert (Hstep : step LoopHigh1 s = Some s1).
    { unfold step. rewrite HL, HH. reflexivity. }
    destruct (loop_call_runs s1 t eq_refl HP)
      as [c1 [s2 [W1 [R1 [L2 [P2 [S2 [H2 [Lo2 [e1 [T1 F1]]]]]]]]]]].
    simpl in S2, H2, Lo2, T1.
    destruct (IH s2 L2 P2 H2)
      as [c2 [s3 [W2 [R2 [L3 [P3 [S3 [H3 [Lo3 [e2 [T2 F2]]]]]]]]]]].
    exists (LoopHigh1 :: c1 ++ c2), s3.
    split; [unfold worker_only in *; simpl; rewrite forallb_app, W1, W2; reflexivity|].
    split; [rewrite run_cons, Hstep, run_app, R1; exact R2|].
    repeat (split; [congruence|]).
    exists (e1 ++ e2). split.
    + rewrite T2, T1, app_assoc. reflexivity.
    + rewrite filter_app, F1, F2. reflexivity.
Qed.

Lemma drain_low (ls : list Transaction) (s : @State B) :
  loop s = LSelect1 -> procs s = [] -> stopper s = SIdle ->
  HighPrio (world s) = [] -> LowPrio (world s) = ls ->
  exists sched s',
    worker_only sched = true /\ run sched s = Some s' /\
    loop s' = LSelect1 /\ procs s' = [] /\ stopper s' = SIdle /\
    HighPrio (world s') = [] /\ LowPrio (world s') = [] /\
    exists evs, trace (world s') = trace (world s) ++ evs /\
                filter is_breaker_check evs = map (fun t => EvIsBlock (GetTarget t)) ls.
Proof.
  revert s. induction ls as [|t r IH]; intros s HL HP HS HH HLo.
  - exists [], s. repeat (split; [auto|]). exists []. rewrite app_nil_r. auto.
  - set (s1 := set_loop (LCall (CEnter t)) (set_world (set_LowPrio r (world s))
                                              (set_loop LSelect2 s))).
    assert (Hstep : run [LoopDefault1; LoopLow2] s = Some s1).
    { simpl. rewrite HL, HH. unfold stop_pending. rewrite HS. simpl.
      rewrite HLo. reflexivity. }
    destruct (loop_call_runs s1 t eq_refl HP)
      as [c1 [s2 [W1 [R1 [L2 [P2 [S2 [H2 [Lo2 [e1 [T1 F1]]]]]]]]]]].
    simpl in S2, H2, Lo2, T1.
    destruct (IH s2 L2 P2 (eq_trans S2 HS) (eq_trans H2 HH) Lo2)
      as [c2 [s3 [W2 [R2 [L3 [P3 [S3 [H3 [Lo3 [e2 [T2 F2]]]]]]]]]]].
    exists ([LoopDefault1; LoopLow2] ++ c1 ++ c2), s3.
    split; [unfold worker_only in *; simpl; rewrite forallb_app, W1, W2; reflexivity|].
    split; [rewrite run_app, Hstep, run_app, R1; exact R2|].
    repeat (split; [congruence|]).
    exists (e1 ++ e2). split.
    + rewrite T2, T1, app_assoc. reflexivity.
    + rewrite filter_app, F1, F2. reflexivity.
Qed.

(** X7: left alone, the loop can work through both queues: from [Start]
    there is a run of the worker's own steps after which [HighPrio] and
    [LowPrio] are empty, no execution is in flight, and the breaker has
    been consulted once for each queued transaction, those of [HighPrio]
    first. *)
Theorem loop_drains_queues (w0 : @World B) :
  exists sched s',
    worker_only sched = true /\ run sched (Start w0) = Some s' /\
    loop s' = LSelect1 /\ procs s' = [] /\
    HighPrio (world s') = [] /\ LowPrio (world s') = [] /\
    filter is_breaker_check (new_events w0 (world s')) =
      map (fun t => EvIsBlock (GetTarget t)) (HighPrio w0 ++ LowPrio w0).
Proof.
  destruct (drain_high (HighPrio w0) (Start w0) eq_refl eq_refl eq_refl)
    as [c1 [s1 [W1 [R1 [L1 [P1 [S1 [H1 [Lo1 [e1 [T1 F1]]]]]]]]]]].
  simpl in S1, Lo1, T1.
  destruct (drain_low (LowPrio w0) s1 L1 P1 S1 H1 Lo1)
    as [c2 [s2 [W2 [R2 [L2 [P2 [S2 [H2 [Lo2 [e2 [T2 F2]]]]]]]]]]].
  exists (c1 ++ c2), s2.
  split; [rewrite worker_only_app, W1, W2; reflexivity|].
  split; [rewrite run_app, R1; exact R2|].
  repeat (split; [assumption|]).
  assert (Ht : trace (world s2) = trace w0 ++ (e1 ++ e2)).
  { rewrite T2, T1, app_assoc. reflexivity. }
  rewrite (new_events_app _ _ _ Ht), filter_app, F1, F2, map_app. reflexivity.
Qed.

End WorkerFacts.

(** * The caching parameter store: properties *)
Module CachingStoreFacts.
Import CachingStore.

Section Facts.

Context {StoreKey : Type} (StoreKey_eqb : StoreKey -> StoreKey -> bool).
Context (StoreKey_eqb_spec : forall a b, StoreKey_eqb a b = true <-> a = b).
Context {S : Type} (inner_get : S -> StoreKey -> (string + string) * S).

#[local] Abbreviation lookup := (cache_lookup StoreKey_eqb).
#[local] Abbreviation store := (cache_store StoreKey_eqb).
#[local] Abbreviation get := (get StoreKey_eqb inner_get).
#[local] Abbreviation gets := (gets StoreKey_eqb inner_get).
#[local] Abbreviation fetched := (fetched StoreKey_eqb).
#[local] Abbreviation coherent := (coherent StoreKey_eqb).

Lemma eqb_refl (a : StoreKey) : StoreKey_eqb a a = true.
Proof. apply StoreKey_eqb_spec. reflexivity. Qed.

Lemma eqb_neq (a b : StoreKey) : a <> b -> StoreKey_eqb a b = false.
Proof.
  intros H. destruct (StoreKey_eqb a b) eqn:E; [|reflexivity].
  apply StoreKey_eqb_spec in E. contradiction.
Qed.

Lemma lookup_store_same (k : StoreKey) (v : string) (m : cache_map) :
  lookup k (store k v m) = Some v.
Proof. unfold cache_store. simpl. rewrite eqb_refl. reflexivity. Qed.

Lemma lookup_filter_other (k k' : StoreKey) (m : cache_map) :
  k' <> k ->
  lookup k' (filter (fun p => negb (StoreKey_eqb (fst p) k)) m) = lookup k' m.
Proof.
  intros Hn. induction m as [|[a v] r IH]; simpl; [reflexivity|].
  destruct (StoreKey_eqb a k) eqn:Ea; simpl.
  - apply StoreKey_eqb_spec in Ea. subst a.
    rewrite (eqb_neq k k') by congruence. exact IH.
  - destruct (StoreKey_eqb a k'); [reflexivity|exact IH].
Qed.

Lemma lookup_store_other (k k' : StoreKey) (v : string) (m : cache_map) :
  k' <> k -> lookup k' (store k v m) = lookup k' m.
Proof.
  intros Hn. unfold cache_store. simpl.
  rewrite (eqb_neq k k') by congruence. apply lookup_filter_other. exact Hn.
Qed.

(** A cached value stays cached, with the same value, through any call. *)
Lemma get_keeps (k k' : StoreKey) (v : string) (cs : cachingStore) :
  lookup k (cache cs) = Some v ->
  lookup k (cache (snd (get k' cs))) = Some v.
Proof.
  intros Hk. unfold CachingStore.get.
  destruct (lookup k' (cache cs)) as [v'|] eqn:Hk'; [exact Hk|].
  destruct (inner_get (s cs) k') as [[val|err] s']; cbn [snd cache]; [|exact Hk].
  rewrite lookup_store_other; [exact Hk|].
  intros ->. rewrite Hk in Hk'. discriminate.
Qed.

Lemma gets_keeps (keys : list StoreKey) (k : StoreKey) (v : string) (cs : cachingStore) :
  lookup k (cache cs) = Some v ->
  lookup k (cache (snd (gets keys cs))) = Some v.
Proof.
  revert cs. induction keys as [|k' r IH]; intros cs Hk; simpl; [exact Hk|].
  pose proof (get_keeps k k' v cs Hk) as H1.
  destruct (get k' cs) as [a cs1]. simpl in H1.
  specialize (IH cs1 H1). destruct (gets r cs1) as [l cs2]. exact IH.
Qed.

Lemma get_hit (k : StoreKey) (v : string) (cs : cachingStore) :
  lookup k (cache cs) = Some v -> get k cs = ((v, None), cs).
Proof. intros H. unfold CachingStore.get. rewrite H. reflexivity. Qed.

Lemma get_ok_cached (k : StoreKey) (v : string) (cs cs1 : cachingStore) :
  get k cs = ((v, None), cs1) -> lookup k (cache cs1) = Some v.
Proof.
  unfold CachingStore.get.
  destruct (lookup k (cache cs)) as [v'|] eqn:Hk.
  - intros H. injection H as <- <-. exact Hk.
  - destruct (inner_get (s cs) k) as [[val|err] s']; intros H.
    + injection H as <- <-. cbn [cache]. apply lookup_store_same.
    + discriminate.
Qed.

(** X8: a value that [get] returned once is pinned: after any further
    calls, on any keys, [get] returns the same value for that key, without
    asking the underlying store and without changing anything. *)
Theorem get_pins_value
    (k : StoreKey) (v : string) (cs cs1 : cachingStore) (keys : list StoreKey) :
  get k cs = ((v, None), cs1) ->
  let cs2 := snd (gets keys cs1) in
  get k cs2 = ((v, None), cs2).
Proof.
  intros H cs2. apply get_hit. apply gets_keeps. eapply get_ok_cached. exact H.
Qed.

Lemma fetched_app (k : StoreKey) (a b : list (StoreKey * (string + string))) :
  fetched k (a ++ b) = fetched k a ++ fetched k b.
Proof. unfold CachingStore.fetched. apply flat_map_app. Qed.

Lemma get_coherent (k : StoreKey) (cs : cachingStore) :
  coherent cs -> coherent (snd (get k cs)).
Proof.
  intros HC. unfold CachingStore.get.
  destruct (lookup k (cache cs)) as [v'|] eqn:Hk; [exact HC|].
  destruct (inner_get (s cs) k) as [[val|err] s']; cbn [snd]; intros k0;
    cbn [cache asked]; rewrite fetched_app, (HC k0);
    unfold CachingStore.fetched; cbn [flat_map]; rewrite ?app_nil_r.
  - destruct (StoreKey_eqb k k0) eqn:E.
    + apply StoreKey_eqb_spec in E. subst k0.
      rewrite Hk, lookup_store_same. reflexivity.
    + rewrite lookup_store_other, app_nil_r; [reflexivity|].
      intros ->. rewrite eqb_refl in E. discriminate.
  - reflexivity.
Qed.

Lemma gets_coherent (keys : list StoreKey) (cs : cachingStore) :
  coherent cs -> coherent (snd (gets keys cs)).
Proof.
  revert cs. induction keys as [|k r IH]; intros cs HC; simpl; [exact HC|].
  pose proof (get_coherent k cs HC) as H1.
  destruct (get k cs) as [a cs1]. simpl in H1.
  specialize (IH cs1 H1). destruct (gets r cs1) as [l cs2]. exact IH.
Qed.

(** X9: over any sequence of calls on a new caching store, the underlying
    store gives a value at most once per key, and the cache holds exactly
    the keys it gave a value for, with that value: an error is never
    cached. *)
Theorem one_fetch_per_key (s0 : S) (keys : list StoreKey) (k : StoreKey) :
  let cs := snd (gets keys (newCachingStore s0)) in
  List.length (fetched k (asked cs)) <= 1 /\
  (forall v, lookup k (cache cs) = Some v <-> fetched k (asked cs) = [v]).
Proof.
  intros cs.
  assert (HC : coherent cs).
  { apply gets_coherent. intros k0. reflexivity. }
  rewrite (HC k). destruct (lookup k (cache cs)) as [v'|]; simpl.
  - split; [lia|]. intros v. split; intros H; congruence.
  - split; [lia|]. intros v. split; intros H; discriminate.
Qed.

(** X10: an error is returned with the empty string and is not remembered:
    the cache is left as it was, and the next [get] of that key asks the
    underlying store again and returns what it answers then. *)
Theorem error_is_not_cached (k : StoreKey) (cs cs1 : cachingStore) (x err : string) :
  get k cs = ((x, Some err), cs1) ->
  x = EmptyString /\
  cache cs1 = cache cs /\
  inner_get (s cs) k = (inr err, s cs1) /\
  fst (get k cs1) =
    match fst (inner_get (s cs1) k) with
    | inl v => (v, None)
    | inr e => (EmptyString, Some e)
    end.
Proof.
  unfold CachingStore.get at 1.
  destruct (lookup k (cache cs)) as [v'|] eqn:Hk; [discriminate|].
  destruct (inner_get (s cs) k) as [[val|e] s'] eqn:Hg; [discriminate|].
  intros H. injection H as <- <- <-. cbn [cache s].
  repeat split; try reflexivity.
  unfold CachingStore.get. cbn [cache s]. rewrite Hk.
  destruct (inner_get s' k) as [[v|e'] s2]; reflexivity.
Qed.

(** X11: over an underlying store that always answers the same for a key,
    the cache is transparent: every [get] of any sequence of calls on a new
    caching store returns what the underlying store answers for its key. *)
Theorem transparent_over_constant_store
    (answer : StoreKey -> string + string) (s0 : S) (keys : list StoreKey) :
  (forall st k, fst (inner_get st k) = answer k) ->
  fst (gets keys (newCachingStore s0)) =
    map (fun k => match answer k with
                  | inl v => (v, None)
                  | inr e => (EmptyString, Some e)
                  end) keys.
Proof.
  intros Hconst.
  assert (Hgen : forall keys cs,
            (forall k v, lookup k (cache cs) = Some v -> answer k = inl v) ->
            fst (gets keys cs) =
              map (fun k => match answer k with
                            | inl v => (v, None)
                            | inr e => (EmptyString, Some e)
                            end) keys).
  { clear keys. induction keys as [|k r IH]; intros cs Hinv; simpl; [reflexivity|].
    unfold CachingStore.get.
    destruct (lookup k (cache cs)) as [v|] eqn:Hk.
    - rewrite (Hinv k v Hk). specialize (IH cs Hinv).
      destruct (gets r cs) as [l cs2]. simpl in *. rewrite IH. reflexivity.
    - pose proof (Hconst (s cs) k) as Ha.
      destruct (inner_get (s cs) k) as [[val|e] s'] eqn:Hg; simpl in Ha; rewrite <- Ha.
      + match goal with
        | |- context [gets r ?c] =>
            assert (Hinv' : forall k0 v0, lookup k0 (cache c) = Some v0 -> answer k0 = inl v0)
        end.
        { intros k0 v0. cbn [cache].
          destruct (StoreKey_eqb k k0) eqn:E.
          - apply StoreKey_eqb_spec in E. subst k0.
            rewrite lookup_store_same. intros H. injection H as <-. symmetry. exact Ha.
          - rewrite lookup_store_other; [apply Hinv|].
            intros ->. rewrite eqb_refl in E. discriminate. }
        specialize (IH _ Hinv').
        match goal with
        | |- context [gets r ?c] => destruct (gets r c) as [l cs2]
        end. simpl in *. rewrite IH. reflexivity.
      + specialize (IH {| cache := cache cs; s := s'; asked := asked cs ++ [(k, inr e)] |} Hinv).
        match goal with
        | |- context [gets r ?c] => destruct (gets r c) as [l cs2]
        end. simpl in *. rewrite IH. reflexivity. }
  apply Hgen. intros k v H. discriminate.
Qed.

End Facts.

End CachingStoreFacts.

(** * The Java TLS program: properties *)
Module JavaTLSFacts.
Import Ascii.
Import JavaTLS.

Section Facts.

Context {Regexp : Type}.
Context (MatchString : Regexp -> string -> bool).
Context (regexp_Compile : string -> Regexp + string).
Context (bytes_TrimSpace : string -> string).
Context (filepath_Join : string -> string -> string).
Context (HTTPSSupported : Config -> bool).
Context (os_Open : string -> option string).

#[local] Abbreviation isJavaProcess := (isJavaProcess bytes_TrimSpace).
#[local] Abbreviation isAttachmentAllowed := (isAttachmentAllowed MatchString bytes_TrimSpace).
#[local] Abbreviation newJavaTLSProgram :=
  (newJavaTLSProgram regexp_Compile filepath_Join HTTPSSupported os_Open).

(** X12: [isJavaProcess] reads the comm file at most four times and answers
    from the first read that succeeds: when read number [k] (of 0..3) is
    the first to succeed, the answer is whether its content, trimmed, is
    "java", after [k + 1] reads; when the four reads fail the answer is
    false. *)
Theorem isJavaProcess_first_successful_read (comm : nat -> option string) :
  (forall k content,
     k <= 3 -> (forall i, i < k -> comm i = None) -> comm k = Some content ->
     isJavaProcess comm =
       (String.eqb (bytes_TrimSpace content) javaProcessName, S k)) /\
  ((forall i, i <= 3 -> comm i = None) -> isJavaProcess comm = (false, 4)).
Proof.
  split.
  - intros k content Hk Hnone Hsome. unfold JavaTLS.isJavaProcess.
    destruct k as [|[|[|[|k]]]]; try lia.
    + rewrite Hsome. reflexivity.
    + rewrite (Hnone 0) by lia. simpl. rewrite Hsome. reflexivity.
    + rewrite (Hnone 0) by lia. simpl. rewrite (Hnone 1) by lia.
      rewrite Hsome. reflexivity.
    + rewrite (Hnone 0) by lia. simpl. rewrite (Hnone 1), (Hnone 2) by lia.
      rewrite Hsome. reflexivity.
  - intros Hnone. unfold JavaTLS.isJavaProcess.
    rewrite (Hnone 0) by lia. simpl.
    rewrite (Hnone 1), (Hnone 2), (Hnone 3) by lia. reflexivity.
Qed.

(** X13: the filter of [isAttachmentAllowed], for a Java process whose
    command line can be read, is the table of its documentation: with no
    expression every process is allowed; with the allow expression only,
    the processes it matches; with the block expression only, the
    processes it does not match; with both, the processes that the allow
    expression matches or the block expression does not match. *)
Theorem isAttachmentAllowed_table
    (g : Globals) (comm : nat -> option string) (cmd : string) :
  fst (isJavaProcess comm) = true ->
  isAttachmentAllowed g comm (Some cmd) =
    match javaAgentAllowRegex g, javaAgentBlockRegex g with
    | None, None => true
    | Some a, None => MatchString a (nul_to_space cmd)
    | None, Some b => negb (MatchString b (nul_to_space cmd))
    | Some a, Some b =>
        MatchString a (nul_to_space cmd) || negb (MatchString b (nul_to_space cmd))
    end.
Proof.
  intros Hj. unfold JavaTLS.isAttachmentAllowed. rewrite Hj. simpl.
  destruct (javaAgentAllowRegex g) as [a|], (javaAgentBlockRegex g) as [b|]; simpl;
    try destruct (MatchString a (nul_to_space cmd));
    try destruct (MatchString b (nul_to_space cmd)); reflexivity.
Qed.

(** X14: [isAttachmentAllowed] rejects what is not a Java process, and, as
    soon as one expression is set, a process whose command line cannot be
    read; with no expression set the command line does not matter. *)
Theorem isAttachmentAllowed_rejections
    (g : Globals) (comm : nat -> option string) (cmdline : option string) :
  (fst (isJavaProcess comm) = false -> isAttachmentAllowed g comm cmdline = false) /\
  (javaAgentAllowRegex g <> None \/ javaAgentBlockRegex g <> None ->
   isAttachmentAllowed g comm None = false) /\
  (javaAgentAllowRegex g = None -> javaAgentBlockRegex g = None ->
   isAttachmentAllowed g comm cmdline = fst (isJavaProcess comm)).
Proof.
  unfold JavaTLS.isAttachmentAllowed. split; [|split].
  - intros Hj. rewrite Hj. reflexivity.
  - intros Hset. destruct (fst (isJavaProcess comm)); [|reflexivity]. simpl.
    destruct (javaAgentAllowRegex g), (javaAgentBlockRegex g); try reflexivity.
    destruct Hset; congruence.
  - intros Ha Hb. rewrite Ha, Hb.
    destruct (fst (isJavaProcess comm)); reflexivity.
Qed.




(** X16: a configured expression that does not compile is dropped: after
    [newJavaTLSProgram] with an allow expression that does not compile and
    no block expression, no filter is set, an error is logged, and every
    Java process is allowed, as if no expression had been configured. *)
Theorem uncompilable_allow_disables_filter
    (c : Config) (g : Globals) (err : string)
    (comm : nat -> option string) (cmdline : option string) :
  EnableJavaTLSSupport c = true -> EnableHTTPSMonitoring c = true ->
  HTTPSSupported c = true ->
  JavaAgentAllowRegex c <> "" -> regexp_Compile (JavaAgentAllowRegex c) = inr err ->
  JavaAgentBlockRegex c = "" ->
  let '(_, g', logs) := newJavaTLSProgram c g in
  javaAgentAllowRegex g' = None /\ javaAgentBlockRegex g' = None /\
  In LError logs /\
  isAttachmentAllowed g' comm cmdline = fst (isJavaProcess comm).
Proof.
  intros H1 H2 H3 Hne Herr Hb.
  unfold JavaTLS.newJavaTLSProgram, compile_filter. rewrite H1, H2, H3, Hb. simpl.
  destruct (String.eqb (JavaAgentAllowRegex c) "") eqn:E.
  { apply String.eqb_eq in E. contradiction. }
  rewrite Herr.
  destruct (os_Open _); simpl; (split; [reflexivity|split; [reflexivity|split]]);
    auto 10;
    unfold JavaTLS.isAttachmentAllowed; simpl;
    destruct (fst (isJavaProcess comm)); reflexivity.
Qed.

(** X17: [newJavaTLSProgram] leaves the package variables untouched when Java
    TLS is not enabled, but has already overwritten them when it gives up
    because the jar cannot be opened; it returns a program exactly when
    the three switches are on and the jar opens. *)
Theorem newJavaTLSProgram_outcome (c : Config) (g : Globals) :
  let '(made, g', _) := newJavaTLSProgram c g in
  let enabled := EnableJavaTLSSupport c && EnableHTTPSMonitoring c && HTTPSSupported c in
  (enabled = false -> made = false /\ g' = g) /\
  (enabled = true ->
   javaUSMAgentJarPath g' = filepath_Join (JavaDir c) agentUSMJar /\
   javaUSMAgentArgs g' = JavaAgentArgs c /\
   javaUSMAgentDebug g' = JavaAgentDebug c /\
   (made = true <-> os_Open (filepath_Join (JavaDir c) agentUSMJar) = None)).
Proof.
  unfold JavaTLS.newJavaTLSProgram.
  destruct (EnableJavaTLSSupport c), (EnableHTTPSMonitoring c), (HTTPSSupported c);
    simpl; try (split; [auto|discriminate]).
  destruct (compile_filter regexp_Compile (JavaAgentAllowRegex c)) as [allow la].
  destruct (compile_filter regexp_Compile (JavaAgentBlockRegex c)) as [block lb].
  destruct (os_Open _) eqn:E; simpl; (split; [discriminate|]); intros _;
    repeat (split; [reflexivity|]); split; congruence.
Qed.

(** X18: [Start] undoes its subscription when it fails: the cleanup function
    that [SubscribeExec] returned is called when [SubscribeExec] or
    [Initialize] fails, and is not called when both succeed.  [Stop] then
    calls the cleanup function (a second time after a failed [Start]) and
    stops the monitor. *)
Theorem Start_then_Stop_cleanup
    (cleanup : bool) (sub_err init_err : option string) (p : JavaTLSProgram) :
  let (p', started) := Start (cleanup, sub_err) init_err p in
  let failed := match sub_err, init_err with None, None => false | _, _ => true end in
  List.length (filter is_cleanup started) = (if cleanup && failed then 1 else 0) /\
  (In Initialize started <-> sub_err = None) /\
  Stop p' = (if cleanup then [CleanupExec] else []) ++ [MonitorStop].
Proof.
  unfold JavaTLS.Start, JavaTLS.Stop.
  destruct cleanup, sub_err, init_err; simpl;
    (split; [reflexivity|split; [|reflexivity]]); split; intros H;
    try reflexivity; try discriminate; auto;
    repeat (destruct H as [H|H]; try discriminate); try contradiction.
Qed.

End Facts.

End JavaTLSFacts.

(** * The index of USM data by connection: properties *)
Module USMFacts.
Import USM.

Lemma wrap64_small (z : Z) : (0 <= z < 2 ^ 63)%Z -> wrap64 z = z.
Proof.
  intros H. unfold wrap64.
  rewrite Z.mod_small; lia.
Qed.

Lemma NoDup_snoc {A : Type} (l : list A) (x : A) :
  NoDup l -> ~ In x l -> NoDup (l ++ [x]).
Proof.
  induction l as [|a r IH]; simpl; intros Hnd Hn.
  - constructor; [tauto|constructor].
  - inversion Hnd as [|? ? Ha Hr]; subst. constructor.
    + rewrite in_app_iff. simpl. intros [H|[H|[]]]; [contradiction|].
      subst. tauto.
    + apply IH; [exact Hr|tauto].
Qed.

Section Facts.

Context {K V ConnectionKey Tuple : Type}.
Context (ConnectionKey_eqb : ConnectionKey -> ConnectionKey -> bool).
Context (ConnectionKey_eqb_spec : forall a b, ConnectionKey_eqb a b = true <-> a = b).
Context (USMLookup : @ConnectionStats Tuple ->
                     @conn_map K V ConnectionKey -> option ConnectionKey).
Context (grow : nat -> nat).
Context (keyGen : K -> ConnectionKey).

#[local] Abbreviation lookup := (conn_lookup ConnectionKey_eqb).
#[local] Abbreviation update := (conn_update ConnectionKey_eqb).
#[local] Abbreviation cmap := (@conn_map K V ConnectionKey).
#[local] Abbreviation cdata := (@USMConnectionData K V).
#[local] Abbreviation count := (count_of ConnectionKey_eqb keyGen).
#[local] Abbreviation group := (group_of ConnectionKey_eqb keyGen).
#[local] Abbreviation inv1 := (inv1 ConnectionKey_eqb keyGen).
#[local] Abbreviation inv2 := (inv2 ConnectionKey_eqb keyGen).
#[local] Abbreviation grouped := (grouped ConnectionKey_eqb keyGen).
#[local] Abbreviation unclaimed := (unclaimed ConnectionKey_eqb).
#[local] Abbreviation hits := (hits ConnectionKey_eqb).
#[local] Abbreviation group_sum := (group_sum ConnectionKey_eqb keyGen).

Lemma ck_refl (a : ConnectionKey) : ConnectionKey_eqb a a = true.
Proof. apply ConnectionKey_eqb_spec. reflexivity. Qed.

Lemma ck_neq (a b : ConnectionKey) : a <> b -> ConnectionKey_eqb a b = false.
Proof.
  intros H. destruct (ConnectionKey_eqb a b) eqn:E; [|reflexivity].
  apply ConnectionKey_eqb_spec in E. contradiction.
Qed.

Lemma ck_true (a b : ConnectionKey) : ConnectionKey_eqb a b = true -> a = b.
Proof. apply ConnectionKey_eqb_spec. Qed.

Lemma ck_sym (a b : ConnectionKey) : ConnectionKey_eqb a b = ConnectionKey_eqb b a.
Proof.
  destruct (ConnectionKey_eqb a b) eqn:E.
  - apply ck_true in E. subst. symmetry. apply ck_refl.
  - destruct (ConnectionKey_eqb b a) eqn:E'; [|reflexivity].
    apply ck_true in E'. subst. rewrite ck_refl in E. discriminate.
Qed.

(** *** The map *)

Lemma lookup_app_new (k k' : ConnectionKey) (d : cdata) (m : cmap) :
  lookup k m = None ->
  lookup k' (m ++ [(k, d)]) = if ConnectionKey_eqb k k' then Some d else lookup k' m.
Proof.
  induction m as [|[a x] r IH]; simpl; intros Hn.
  - destruct (ConnectionKey_eqb k k'); reflexivity.
  - destruct (ConnectionKey_eqb a k) eqn:Eak; [discriminate|].
    destruct (ConnectionKey_eqb a k') eqn:Eak'.
    + apply ck_true in Eak'. subst k'. rewrite ck_sym, Eak. reflexivity.
    + apply IH. exact Hn.
Qed.

Lemma lookup_update (k k' : ConnectionKey) (f : cdata -> cdata) (m : cmap) :
  lookup k' (update k f m) =
    if ConnectionKey_eqb k k' then option_map f (lookup k m) else lookup k' m.
Proof.
  induction m as [|[a x] r IH]; simpl.
  - destruct (ConnectionKey_eqb k k'); reflexivity.
  - destruct (ConnectionKey_eqb a k) eqn:Eak; simpl.
    + apply ck_true in Eak. subst a.
      destruct (ConnectionKey_eqb k k'); reflexivity.
    + destruct (ConnectionKey_eqb a k') eqn:Eak'.
      * apply ck_true in Eak'. subst k'. rewrite ck_sym, Eak. reflexivity.
      * exact IH.
Qed.

Lemma update_keys (k : ConnectionKey) (f : cdata -> cdata) (m : cmap) :
  map fst (update k f m) = map fst m.
Proof.
  induction m as [|[a x] r IH]; simpl; [reflexivity|].
  destruct (ConnectionKey_eqb a k); simpl; [reflexivity|]. rewrite IH. reflexivity.
Qed.

Lemma lookup_none_not_in (k : ConnectionKey) (m : cmap) :
  lookup k m = None -> ~ In k (map fst m).
Proof.
  induction m as [|[a x] r IH]; simpl; intros Hn; [tauto|].
  destruct (ConnectionKey_eqb a k) eqn:E; [discriminate|].
  intros [H|H]; [subst; rewrite ck_refl in E; discriminate|].
  exact (IH Hn H).
Qed.

(** *** The first loop *)

Lemma count_app (ck : ConnectionKey) (a b : list K) :
  count ck (a ++ b) = count ck a + count ck b.
Proof. unfold count_of. rewrite filter_app, length_app. reflexivity. Qed.

Lemma count_le (ck : ConnectionKey) (ks : list K) : count ck ks <= List.length ks.
Proof. unfold count_of. apply filter_length_le. Qed.

Lemma first_pass_inv (ks : list K) (k : K) (m : cmap) :
  (Z.of_nat (List.length ks) + 1 < 2 ^ 63)%Z ->
  inv1 ks m -> inv1 (ks ++ [k]) (first_pass ConnectionKey_eqb keyGen m k).
Proof.
  intros Hlen [Hnd [Hl Hinv]]. unfold first_pass.
  pose proof (Hinv (keyGen k)) as Hk.
  pose proof (count_le (keyGen k) ks) as Hc.
  destruct (lookup (keyGen k) m) as [d|] eqn:Hlk.
  - split; [rewrite update_keys; exact Hnd|]. split.
    { rewrite length_app. simpl.
      assert (List.length (update (keyGen k) incr_size m) = List.length m).
      { rewrite <- (length_map fst), update_keys, length_map. reflexivity. }
      lia. }
    intros ck. rewrite lookup_update, Hlk, count_app. unfold count_of at 2. simpl.
    destruct (ConnectionKey_eqb (keyGen k) ck) eqn:E; simpl.
    + apply ck_true in E. subst ck.
      destruct (count (keyGen k) ks) as [|n] eqn:En; [discriminate|].
      injection Hk as ->. rewrite Nat.add_1_r. simpl option_map.
      unfold incr_size, counted. cbn [Data DataCap sport dport claimed size].
      rewrite wrap64_small by lia.
      f_equal. f_equal. lia.
    + rewrite Nat.add_0_r. apply Hinv.
  - split.
    { rewrite map_app. simpl. apply NoDup_snoc; [exact Hnd|].
      apply lookup_none_not_in. exact Hlk. }
    split; [rewrite !length_app; simpl; lia|].
    intros ck. rewrite (lookup_app_new _ _ _ _ Hlk), count_app. unfold count_of at 2. simpl.
    destruct (ConnectionKey_eqb (keyGen k) ck) eqn:E; simpl.
    + apply ck_true in E. subst ck.
      destruct (count (keyGen k) ks) as [|n] eqn:En; [|discriminate].
      simpl. unfold incr_size, counted, new_USMConnectionData.
      cbn [Data DataCap sport dport claimed size].
      rewrite wrap64_small by lia. reflexivity.
    + rewrite Nat.add_0_r. apply Hinv.
Qed.

Lemma first_loop_inv (l ks : list K) (m : cmap) :
  (Z.of_nat (List.length (ks ++ l)) < 2 ^ 63)%Z ->
  inv1 ks m -> inv1 (ks ++ l) (fold_left (first_pass ConnectionKey_eqb keyGen) l m).
Proof.
  revert ks m. induction l as [|k r IH]; intros ks m Hlen Hinv; simpl.
  - rewrite app_nil_r. exact Hinv.
  - replace (ks ++ k :: r) with ((ks ++ [k]) ++ r) in *
      by (rewrite <- app_assoc; reflexivity).
    apply IH; [exact Hlen|].
    apply first_pass_inv; [|exact Hinv].
    rewrite !length_app in Hlen. simpl in Hlen. lia.
Qed.

(** *** The second loop *)

Lemma group_app (ck : ConnectionKey) (a b : list (K * V)) :
  group ck (a ++ b) = group ck a ++ group ck b.
Proof. unfold group_of. rewrite filter_app, map_app. reflexivity. Qed.

Lemma group_single (ck : ConnectionKey) (kv : K * V) :
  group ck [kv] =
    if ConnectionKey_eqb (keyGen (fst kv)) ck
    then [{| Key := fst kv; Value := snd kv |}] else [].
Proof.
  unfold group_of. simpl. destruct (ConnectionKey_eqb _ _); reflexivity.
Qed.

Lemma group_count (ck : ConnectionKey) (l : list (K * V)) :
  List.length (group ck l) = count ck (map fst l).
Proof.
  unfold group_of, count_of. rewrite length_map.
  induction l as [|kv r IH]; simpl; [reflexivity|].
  destruct (ConnectionKey_eqb (keyGen (fst kv)) ck); simpl; rewrite IH; reflexivity.
Qed.

Lemma group_perm (ck : ConnectionKey) (a b : list (K * V)) :
  Permutation a b -> List.length (group ck a) = List.length (group ck b).
Proof.
  intros HP. unfold group_of. rewrite !length_map.
  induction HP as [|x l l' HP IH|x y l|l l' l'' H1 IH1 H2 IH2]; simpl.
  - reflexivity.
  - destruct (ConnectionKey_eqb _ _); simpl; rewrite IH; reflexivity.
  - destruct (ConnectionKey_eqb (keyGen (fst x)) ck),
             (ConnectionKey_eqb (keyGen (fst y)) ck); reflexivity.
  - congruence.
Qed.

Lemma add_data_filled (j : nat) (g : list USMKeyValue) (k : K) (v : V) :
  List.length g <= j ->
  add_data grow k v (filled (S j) g) = filled (S j) (g ++ [{| Key := k; Value := v |}]).
Proof.
  intros Hg. unfold add_data, filled, append.
  cbn [Data DataCap sport dport claimed size].
  assert (Hlt : Nat.ltb (List.length g) (S j) = true) by (apply Nat.ltb_lt; lia).
  destruct g as [|x g']; [rewrite Nat2Z.id|]; rewrite Hlt; reflexivity.
Qed.

Lemma second_pass_inv (n : ConnectionKey -> nat) (q : list (K * V)) (kv : K * V)
    (st : cmap * nat) :
  List.length (group (keyGen (fst kv)) q) < n (keyGen (fst kv)) ->
  inv2 n q st -> inv2 n (q ++ [kv]) (second_pass ConnectionKey_eqb grow keyGen st kv).
Proof.
  intros Hlt [He [Hnd Hinv]]. destruct st as [m errors]. simpl in He, Hnd, Hinv.
  subst errors. unfold second_pass. cbn [fst snd].
  pose proof (Hinv (keyGen (fst kv))) as Hk.
  destruct (n (keyGen (fst kv))) as [|j] eqn:En; [lia|].
  rewrite Hk. split; [reflexivity|]. split; [cbn [fst]; rewrite update_keys; exact Hnd|].
  intros ck. cbn [fst]. rewrite lookup_update, Hk, group_app, group_single.
  destruct (ConnectionKey_eqb (keyGen (fst kv)) ck) eqn:E.
  - apply ck_true in E. subst ck. rewrite En. simpl.
    rewrite add_data_filled by lia. reflexivity.
  - simpl. rewrite app_nil_r. apply Hinv.
Qed.

Lemma second_loop_inv (n : ConnectionKey -> nat) (l q : list (K * V)) (st : cmap * nat) :
  (forall ck, List.length (group ck (q ++ l)) <= n ck) ->
  inv2 n q st ->
  inv2 n (q ++ l) (fold_left (second_pass ConnectionKey_eqb grow keyGen) l st).
Proof.
  revert q st. induction l as [|kv r IH]; intros q st Hn Hinv; simpl.
  - rewrite app_nil_r. exact Hinv.
  - replace (q ++ kv :: r) with ((q ++ [kv]) ++ r) in *
      by (rewrite <- app_assoc; reflexivity).
    apply IH; [exact Hn|].
    apply second_pass_inv; [|exact Hinv].
    specialize (Hn (keyGen (fst kv))).
    rewrite !group_app, !length_app, group_single, ck_refl in Hn. simpl in Hn. lia.
Qed.

Lemma second_loop_length (l : list (K * V)) (st : cmap * nat) :
  List.length (fst (fold_left (second_pass ConnectionKey_eqb grow keyGen) l st)) =
  List.length (fst st).
Proof.
  revert st. induction l as [|kv r IH]; intros st; simpl; [reflexivity|].
  rewrite IH. destruct st as [m e]. unfold second_pass. cbn [fst].
  destruct (lookup (keyGen (fst kv)) m); cbn [fst]; [|reflexivity].
  rewrite <- (length_map fst), update_keys, length_map. reflexivity.
Qed.

(** What [GroupByConnection] builds, entry by entry. *)
Lemma GroupByConnection_inv (protocol_name : string) (pass1 pass2 : list (K * V)) :
  Permutation pass1 pass2 ->
  (Z.of_nat (List.length pass1) < 2 ^ 63)%Z ->
  let (bc, errors) :=
    GroupByConnection ConnectionKey_eqb USMLookup grow protocol_name pass1 pass2 keyGen in
  errors = 0 /\ once bc = false /\ lookupFn bc = USMLookup /\
  List.length (data bc) <= List.length pass1 /\
  NoDup (map fst (data bc)) /\
  forall ck, lookup ck (data bc) =
             match List.length (group ck pass2) with
             | O => None
             | S j => Some (filled (S j) (group ck pass2))
             end.
Proof.
  intros HP Hlen. unfold GroupByConnection.
  set (m1 := fold_left (first_pass ConnectionKey_eqb keyGen) (map fst pass1) []).
  assert (H1 : inv1 (map fst pass1) m1).
  { apply (first_loop_inv (map fst pass1) [] []).
    - simpl. rewrite length_map. exact Hlen.
    - split; [constructor|]. split; [apply Nat.le_refl|]. intros ck. reflexivity. }
  destruct H1 as [Hnd [Hl H1]].
  assert (H2 : inv2 (fun ck => List.length (group ck pass2)) ([] ++ pass2)
                 (fold_left (second_pass ConnectionKey_eqb grow keyGen) pass2 (m1, 0))).
  { apply second_loop_inv; [intros ck; apply Nat.le_refl|].
    split; [reflexivity|]. split; [exact Hnd|]. intros ck. cbn [fst].
    rewrite (H1 ck), <- (group_perm ck pass1 pass2 HP), group_count.
    destruct (count ck (map fst pass1)); reflexivity. }
  pose proof (second_loop_length pass2 (m1, 0)) as Hlen2. cbn [fst] in Hlen2.
  destruct (fold_left (second_pass ConnectionKey_eqb grow keyGen) pass2 (m1, 0))
    as [m2 errors].
  destruct H2 as [He [Hnd2 H2]]. simpl in He, Hnd2, H2, Hlen2. cbn [data once lookupFn].
  rewrite length_map in Hl.
  repeat split; auto; lia.
Qed.

Lemma group_nil_no_key (ck : ConnectionKey) (l : list (K * V)) :
  List.length (group ck l) = 0 -> forall kv, In kv l -> keyGen (fst kv) <> ck.
Proof.
  unfold group_of. rewrite length_map. intros H kv Hin Heq.
  assert (Hf : In kv (filter (fun kv => ConnectionKey_eqb (keyGen (fst kv)) ck) l)).
  { apply filter_In. split; [exact Hin|]. rewrite Heq. apply ck_refl. }
  destruct (filter _ l); [contradiction|discriminate].
Qed.

(** X19: [GroupByConnection] puts every pair of the map under the connection
    key that [keyGen] gives to its key, whatever the orders in which the
    two loops range over the map: an entry exists exactly for the
    connection keys of the data, its [Data] holds exactly the pairs of
    that connection, its [size] is their number, and the slice made with
    that capacity never has to grow.  No entry is claimed, no port is
    recorded, there are no more entries than pairs, and the error for a
    missing aggregation is never logged. *)
Theorem GroupByConnection_groups (protocol_name : string) (pass1 pass2 : list (K * V)) :
  Permutation pass1 pass2 ->
  (Z.of_nat (List.length pass1) < 2 ^ 63)%Z ->
  let (bc, errors) :=
    GroupByConnection ConnectionKey_eqb USMLookup grow protocol_name pass1 pass2 keyGen in
  errors = 0 /\
  List.length (data bc) <= List.length pass1 /\
  forall ck,
    match lookup ck (data bc) with
    | None => forall kv, In kv pass2 -> keyGen (fst kv) <> ck
    | Some d =>
        Data d = group ck pass2 /\ Data d <> [] /\
        size d = Z.of_nat (List.length (Data d)) /\
        DataCap d = Some (List.length (Data d)) /\
        claimed d = false /\ sport d = 0%Z /\ dport d = 0%Z
    end.
Proof.
  intros HP Hlen.
  pose proof (GroupByConnection_inv protocol_name pass1 pass2 HP Hlen) as H.
  destruct (GroupByConnection _ _ _ _ _ _ _) as [bc errors].
  destruct H as [He [_ [_ [Hl [_ H]]]]].
  split; [exact He|]. split; [exact Hl|].
  intros ck. rewrite (H ck).
  destruct (List.length (group ck pass2)) as [|j] eqn:En.
  - apply group_nil_no_key. exact En.
  - unfold filled. cbn [Data DataCap sport dport claimed size].
    destruct (group ck pass2) as [|x g]; [discriminate|].
    rewrite En. repeat split. discriminate.
Qed.

(** *** [Find] and [Close] *)

Lemma in_lookup (ck : ConnectionKey) (d : cdata) (m : cmap) :
  NoDup (map fst m) -> In (ck, d) m -> lookup ck m = Some d.
Proof.
  induction m as [|[a x] r IH]; simpl; intros Hnd Hin; [contradiction|].
  inversion Hnd as [|? ? Ha Hr]; subst.
  destruct Hin as [Hin|Hin].
  - injection Hin as -> ->. rewrite ck_refl. reflexivity.
  - destruct (ConnectionKey_eqb a ck) eqn:E.
    + apply ck_true in E. subst a. exfalso. apply Ha.
      apply (in_map fst) in Hin. exact Hin.
    + apply IH; assumption.
Qed.

Lemma hits_absent (m : cmap) (c : ConnectionKey) :
  ~ In c (map fst m) -> hits m c = 0.
Proof.
  induction m as [|[a x] r IH]; simpl; intros Hn; [reflexivity|].
  rewrite IH by tauto.
  destruct (claimed x); [reflexivity|].
  rewrite ck_neq; [reflexivity|]. intros ->. tauto.
Qed.

Lemma hits_unclaimed (m : cmap) (c : ConnectionKey) :
  NoDup (map fst m) -> hits m c = if unclaimed m c then 1 else 0.
Proof.
  unfold unclaimed. induction m as [|[a x] r IH]; simpl; intros Hnd; [reflexivity|].
  inversion Hnd as [|? ? Ha Hr]; subst.
  destruct (ConnectionKey_eqb a c) eqn:E.
  - apply ck_true in E. subst a. rewrite ck_refl, hits_absent by exact Ha.
    destruct (claimed x); reflexivity.
  - rewrite ck_sym, E, IH by exact Hr. destruct (claimed x); reflexivity.
Qed.

Lemma group_sum_cons (m : cmap) (kv : K * V) (l : list (K * V)) :
  group_sum m (kv :: l) = hits m (keyGen (fst kv)) + group_sum m l.
Proof.
  induction m as [|[a x] r IH]; simpl; [reflexivity|].
  rewrite IH. change (kv :: l) with ([kv] ++ l).
  rewrite group_app, length_app, group_single.
  destruct (claimed x); [lia|].
  destruct (ConnectionKey_eqb (keyGen (fst kv)) a); simpl; lia.
Qed.

Lemma group_sum_filter (m : cmap) (l : list (K * V)) :
  NoDup (map fst m) ->
  group_sum m l =
    List.length (filter (fun kv => unclaimed m (keyGen (fst kv))) l).
Proof.
  intros Hnd. induction l as [|kv r IH].
  - simpl. induction m as [|[a x] m' IHm]; simpl; [reflexivity|].
    inversion Hnd; subst. rewrite IHm by assumption.
    destruct (claimed x); reflexivity.
  - rewrite group_sum_cons, IH, (hits_unclaimed m _ Hnd). simpl.
    destruct (unclaimed m (keyGen (fst kv))); reflexivity.
Qed.

Lemma unclaimed_sum_group (l : list (K * V)) (m : cmap) :
  grouped l m -> unclaimed_sum m = group_sum m l.
Proof.
  intros [Hnd Hg].
  assert (Hall : forall ck d, In (ck, d) m -> Data d = group ck l).
  { intros ck d Hin. pose proof (Hg ck) as H.
    rewrite (in_lookup ck d m Hnd Hin) in H. exact H. }
  clear Hg Hnd. induction m as [|[a x] r IH]; simpl; [reflexivity|].
  rewrite IH by (intros ck d Hin; apply Hall; right; exact Hin).
  rewrite (Hall a x) by (left; reflexivity). reflexivity.
Qed.

Lemma orphan_total_sum (m : cmap) :
  (Z.of_nat (unclaimed_sum m) < 2 ^ 63)%Z ->
  orphan_total m = Z.of_nat (unclaimed_sum m).
Proof.
  unfold orphan_total.
  assert (Hgen : forall m t,
            (0 <= t)%Z -> (t + Z.of_nat (unclaimed_sum m) < 2 ^ 63)%Z ->
            fold_left (fun total (e : ConnectionKey * cdata) =>
                         if claimed (snd e) then total
                         else wrap64 (total + Z.of_nat (List.length (Data (snd e)))))
                      m t = (t + Z.of_nat (unclaimed_sum m))%Z).
  { clear m. induction m as [|[a x] r IH]; intros t Ht Hb; simpl in *; [lia|].
    destruct (claimed x); simpl in *.
    - apply IH; assumption.
    - rewrite wrap64_small by lia. rewrite IH by lia. lia. }
  intros Hb. rewrite Hgen by lia. lia.
Qed.

Lemma Find_grouped (l : list (K * V)) (c : @ConnectionStats Tuple)
    (bc : @USMConnectionIndex K V ConnectionKey Tuple) :
  grouped l (data bc) -> grouped l (data (snd (Find ConnectionKey_eqb c bc))).
Proof.
  intros [Hnd Hg]. unfold Find.
  destruct (lookupFn bc c (data bc)) as [ck|]; [|split; assumption].
  destruct (lookup ck (data bc)) as [d|] eqn:Hd; [|split; assumption].
  cbn [snd data]. split; [rewrite update_keys; exact Hnd|].
  intros ck'. rewrite lookup_update, Hd.
  destruct (ConnectionKey_eqb ck ck') eqn:E; [|apply Hg].
  apply ck_true in E. subst ck'. simpl.
  pose proof (Hg ck) as H. rewrite Hd in H. exact H.
Qed.

(** The entries claimed after a sequence of calls of [Find] are those
    claimed before and those returned. *)
Lemma finds_claimed (l : list (K * V)) (cs : list (@ConnectionStats Tuple))
    (bc : @USMConnectionIndex K V ConnectionKey Tuple) :
  grouped l (data bc) ->
  let (found, bc') := finds ConnectionKey_eqb cs bc in
  grouped l (data bc') /\ once bc' = once bc /\
  forall ck, unclaimed (data bc') ck =
             unclaimed (data bc) ck && negb (existsb (ConnectionKey_eqb ck) found).
Proof.
  revert bc. induction cs as [|c r IH]; intros bc Hg; simpl.
  - split; [exact Hg|]. split; [reflexivity|].
    intros ck. rewrite andb_true_r. reflexivity.
  - pose proof (Find_grouped l c bc Hg) as Hg1.
    specialize (IH (snd (Find ConnectionKey_eqb c bc)) Hg1).
    destruct (finds ConnectionKey_eqb r (snd (Find ConnectionKey_eqb c bc)))
      as [found bc'].
    destruct IH as [Hg' [Ho IH]]. split; [exact Hg'|].
    unfold Find in *.
    destruct (lookupFn bc c (data bc)) as [k|];
      [|split; [exact Ho|intros ck; rewrite IH; reflexivity]].
    destruct (lookup k (data bc)) as [d|] eqn:Hd;
      [|split; [exact Ho|intros ck; rewrite IH; reflexivity]].
    cbn [snd data once] in *. split; [exact Ho|].
    intros ck. rewrite IH. unfold unclaimed. rewrite lookup_update, Hd.
    simpl. rewrite (ck_sym ck k).
    destruct (ConnectionKey_eqb k ck) eqn:E; simpl; [|reflexivity].
    apply ck_true in E. subst ck. rewrite Hd.
    destruct (claimed d); reflexivity.
Qed.

(** X20: [Close] reports the orphans: after [GroupByConnection] and any calls
    of [Find], the first [Close] reports the number of pairs of the data
    whose connection no call of [Find] returned, and reports nothing when
    there is none; it leaves the entries as they are, and a second [Close]
    reports nothing. *)
Theorem Close_reports_unclaimed
    (protocol_name : string) (pass1 pass2 : list (K * V))
    (cs : list (@ConnectionStats Tuple)) :
  Permutation pass1 pass2 ->
  (Z.of_nat (List.length pass1) < 2 ^ 63)%Z ->
  let bc := fst (GroupByConnection ConnectionKey_eqb USMLookup grow
                   protocol_name pass1 pass2 keyGen) in
  let (found, bc1) := finds ConnectionKey_eqb cs bc in
  let orphans :=
    List.length (filter (fun kv => negb (existsb (ConnectionKey_eqb (keyGen (fst kv))) found))
                   pass2) in
  let (bc2, report) := Close bc1 in
  report = (if Nat.eqb orphans 0 then None else Some (Z.of_nat orphans)) /\
  data bc2 = data bc1 /\
  Close bc2 = (bc2, None).
Proof.
  intros HP Hlen.
  pose proof (GroupByConnection_inv protocol_name pass1 pass2 HP Hlen) as H.
  destruct (GroupByConnection _ _ _ _ _ _ _) as [bc errors]. cbn [fst].
  destruct H as [_ [Ho [_ [_ [Hnd H]]]]].
  assert (Hg : grouped pass2 (data bc)).
  { split; [exact Hnd|]. intros ck. rewrite (H ck).
    destruct (List.length (group ck pass2)); reflexivity. }
  assert (Hun : forall kv, In kv pass2 -> unclaimed (data bc) (keyGen (fst kv)) = true).
  { intros kv Hin. unfold unclaimed. rewrite (H (keyGen (fst kv))).
    destruct (List.length (group (keyGen (fst kv)) pass2)) eqn:En.
    - exfalso. exact (group_nil_no_key _ _ En kv Hin eq_refl).
    - reflexivity. }
  pose proof (finds_claimed pass2 cs bc Hg) as Hf.
  destruct (finds ConnectionKey_eqb cs bc) as [found bc1].
  destruct Hf as [Hg1 [Ho1 Hcl]].
  assert (Hsum : unclaimed_sum (data bc1) =
                 List.length (filter (fun kv => negb (existsb (ConnectionKey_eqb
                                                       (keyGen (fst kv))) found)) pass2)).
  { rewrite (unclaimed_sum_group pass2 _ Hg1), (group_sum_filter _ _ (proj1 Hg1)).
    f_equal. apply filter_ext_in. intros kv Hin.
    rewrite Hcl, (Hun kv Hin). reflexivity. }
  unfold Close. rewrite Ho1, Ho. cbn [data once protocol lookupFn].
  assert (Hb : (Z.of_nat (unclaimed_sum (data bc1)) < 2 ^ 63)%Z).
  { rewrite Hsum.
    pose proof (filter_length_le
                  (fun kv => negb (existsb (ConnectionKey_eqb (keyGen (fst kv))) found))
                  pass2) as Hle.
    pose proof (Permutation_length HP). lia. }
  rewrite (orphan_total_sum _ Hb), Hsum.
  split; [|split; reflexivity].
  destruct (List.length (filter _ pass2)) as [|n]; reflexivity.
Qed.

(** *** [IsPIDCollision] *)

(** X21: once a connection has recorded a port that is not 0, the data is
    settled: no later call of [IsPIDCollision] changes it, and a call
    reports a collision exactly when the connection is not the opposite
    end, that is unless its source port is the destination port recorded
    and its destination port the source port recorded. *)
Theorem claim_is_settled (gd : cdata) (cs : list (@ConnectionStats Tuple)) :
  sport gd <> 0%Z \/ dport gd <> 0%Z ->
  collisions cs gd =
    (map (fun c => negb (Z.eqb (SPort c) (dport gd) && Z.eqb (DPort c) (sport gd))) cs,
     gd).
Proof.
  intros Hs.
  assert (Hz : Z.eqb (sport gd) 0 && Z.eqb (dport gd) 0 = false).
  { destruct (Z.eqb_spec (sport gd) 0), (Z.eqb_spec (dport gd) 0); simpl; try reflexivity.
    destruct Hs; contradiction. }
  induction cs as [|c r IH]; simpl; [reflexivity|].
  unfold IsPIDCollision at 1. rewrite Hz.
  destruct (Z.eqb (SPort c) (dport gd) && Z.eqb (DPort c) (sport gd));
    rewrite IH; reflexivity.
Qed.

(** X22: the first connection to ask is never a collision and records its
    ports.  If it asks a second time it is itself reported as a collision,
    unless its two ports are equal; the opposite end of the same
    connection is not.  A connection whose two ports are both 0 records
    nothing, so that the next one to ask is again the first. *)
Theorem first_claim (gd : cdata) (c : @ConnectionStats Tuple) :
  sport gd = 0%Z -> dport gd = 0%Z ->
  let (first, gd1) := IsPIDCollision c gd in
  first = false /\
  sport gd1 = SPort c /\ dport gd1 = DPort c /\
  Data gd1 = Data gd /\ claimed gd1 = claimed gd /\
  (SPort c <> 0%Z \/ DPort c <> 0%Z ->
   fst (IsPIDCollision c gd1) = negb (Z.eqb (SPort c) (DPort c)) /\
   forall c' : @ConnectionStats Tuple,
     SPort c' = DPort c -> DPort c' = SPort c ->
     IsPIDCollision c' gd1 = (false, gd1)) /\
  (SPort c = 0%Z -> DPort c = 0%Z ->
   forall c' : @ConnectionStats Tuple, fst (IsPIDCollision c' gd1) = false).
Proof.
  intros Hs Hd. unfold IsPIDCollision at 1. rewrite Hs, Hd. simpl.
  repeat (split; [reflexivity|]). split.
  - intros Hnz.
    assert (Hz : Z.eqb (SPort c) 0 && Z.eqb (DPort c) 0 = false).
    { destruct (Z.eqb_spec (SPort c) 0), (Z.eqb_spec (DPort c) 0); simpl;
        try reflexivity. destruct Hnz; contradiction. }
    split.
    + unfold IsPIDCollision. cbn [sport dport]. rewrite Hz.
      rewrite (Z.eqb_sym (DPort c) (SPort c)).
      destruct (Z.eqb (SPort c) (DPort c)); reflexivity.
    + intros c' H1 H2. unfold IsPIDCollision. cbn [sport dport]. rewrite Hz.
      rewrite H1, H2, !Z.eqb_refl. reflexivity.
  - intros H1 H2 c'. unfold IsPIDCollision. cbn [sport dport].
    rewrite H1, H2. reflexivity.
Qed.

End Facts.

End USMFacts.

(** * Examples of the further properties *)

(** A reset scheduled on a new worker: the next transaction is sent on
    client 1. *)
Lemma reset_applies_to_next_transaction_witness :
  resetConnectionChan w_reset = 1 /\
  isBlock (blockedList w_reset) (GetTarget (tx_ok 1)) = false /\
  client_id (Client (exec (process Live (tx_ok 1)) (exec poll_reset w_reset))) = 1.
Proof.
  split; [reflexivity|]. split; [reflexivity|].
  pose proof (reset_applies_to_next_transaction Live (tx_ok 1) w_reset 0
                eq_refl eq_refl) as H.
  cbv zeta in H. destruct H as [_ [_ [H _]]]. rewrite H. reflexivity.
Defined.

(** One execution in flight while [Stop(false)] waits to send. *)
Lemma at_most_one_execution_witness :
  reachable stop_run_world preempt_cex_state /\
  List.length (procs preempt_cex_state) <= 1.
Proof.
  assert (Hr : reachable stop_run_world preempt_cex_state)
    by (exists [LoopHigh1; CallEnter ByLoop; ProcBegin 0; DoStop false];
        vm_compute; reflexivity).
  split; [exact Hr|].
  exact (proj1 (at_most_one_execution stop_run_world preempt_cex_state Hr)).
Defined.

(** The receive of the purge leaves [LowPrio] alone. *)
Lemma queues_after_stop_witness :
  reachable (NewWorker cfg0 [tx_fail 1] [tx_ok 2] [] 4 breaker0) purge_cex_state /\
  loop purge_cex_state = LReturned /\
  is_env PurgeHigh = false /\
  step PurgeHigh purge_cex_state = Some (final [PurgeHigh] purge_cex_state) /\
  LowPrio (world (final [PurgeHigh] purge_cex_state)) = LowPrio (world purge_cex_state).
Proof.
  assert (Hr : reachable (NewWorker cfg0 [tx_fail 1] [tx_ok 2] [] 4 breaker0)
                 purge_cex_state)
    by (exists [DoStop true; LoopStop1; StopAck]; vm_compute; reflexivity).
  assert (Hs : step PurgeHigh purge_cex_state = Some (final [PurgeHigh] purge_cex_state))
    by (vm_compute; reflexivity).
  split; [exact Hr|]. split; [reflexivity|]. split; [reflexivity|]. split; [exact Hs|].
  exact (proj1 (queues_after_stop _ purge_cex_state _ PurgeHigh Hr eq_refl eq_refl Hs)).
Defined.

(** [Stop(false)] against a transaction in flight can return. *)
Lemma stop_can_return_witness :
  reachable stop_run_world preempt_cex_state /\
  stopper preempt_cex_state = SSend false /\
  exists sched s',
    worker_only sched = true /\ run sched preempt_cex_state = Some s' /\
    stopper s' = SReturned /\ loop s' = LReturned /\ stopped s' = true /\
    procs s' = [].
Proof.
  assert (Hr : reachable stop_run_world preempt_cex_state)
    by (exists [LoopHigh1; CallEnter ByLoop; ProcBegin 0; DoStop false];
        vm_compute; reflexivity).
  split; [exact Hr|]. split; [reflexivity|].
  exact (stop_can_return stop_run_world preempt_cex_state false Hr eq_refl).
Defined.

(** One transaction in each queue: the high-priority one is submitted to
    the breaker first. *)
Lemma loop_processes_in_priority_order_witness :
  worker_only two_queues_sched = true /\
  run two_queues_sched (Start two_queues_world)
    = Some (final two_queues_sched (Start two_queues_world)) /\
  exists done rest,
    done ++ rest = [tx_ok 1; tx_ok 2] /\
    filter is_breaker_check
      (new_events two_queues_world
         (world (final two_queues_sched (Start two_queues_world)))) =
      map (fun t => EvIsBlock (GetTarget t)) done.
Proof.
  assert (Hrun : run two_queues_sched (Start two_queues_world)
                 = Some (final two_queues_sched (Start two_queues_world)))
    by (vm_compute; reflexivity).
  split; [reflexivity|]. split; [exact Hrun|].
  exact (loop_processes_in_priority_order two_queues_world two_queues_sched _
           eq_refl Hrun).
Defined.

(** A value fetched once is returned again after other calls. *)
Lemma get_pins_value_witness :
  let cs1 := snd (CachingStore.get String.eqb flaky_get "db"
                    (CachingStore.newCachingStore 1)) in
  CachingStore.get String.eqb flaky_get "db" (CachingStore.newCachingStore 1)
    = (("db-value", None), cs1) /\
  let cs2 := snd (CachingStore.gets String.eqb flaky_get ["api"; "db"] cs1) in
  CachingStore.get String.eqb flaky_get "db" cs2 = (("db-value", None), cs2).
Proof.
  intros cs1.
  assert (H : CachingStore.get String.eqb flaky_get "db" (CachingStore.newCachingStore 1)
              = (("db-value", None), cs1)) by reflexivity.
  split; [exact H|].
  exact (CachingStoreFacts.get_pins_value String.eqb String.eqb_eq flaky_get
           "db" "db-value" _ cs1 ["api"; "db"] H).
Defined.

(** A store that fails once: the value is fetched once, on the retry. *)
Lemma one_fetch_per_key_witness :
  (forall a b : string, String.eqb a b = true <-> a = b) /\
  List.length
    (CachingStore.fetched String.eqb "db"
       (CachingStore.asked
          (snd (CachingStore.gets String.eqb flaky_get ["db"; "db"; "db"]
                  (CachingStore.newCachingStore 0))))) <= 1.
Proof.
  split; [exact String.eqb_eq|].
  exact (proj1 (CachingStoreFacts.one_fetch_per_key String.eqb String.eqb_eq flaky_get
                  0 ["db"; "db"; "db"] "db")).
Defined.

(** A store that fails once: the failure is not remembered. *)
Lemma error_is_not_cached_witness :
  let cs1 := snd (CachingStore.get String.eqb flaky_get "db"
                    (CachingStore.newCachingStore 0)) in
  CachingStore.get String.eqb flaky_get "db" (CachingStore.newCachingStore 0)
    = ((EmptyString, Some "timeout"), cs1) /\
  CachingStore.cache cs1 = [].
Proof.
  intros cs1.
  assert (H : CachingStore.get String.eqb flaky_get "db" (CachingStore.newCachingStore 0)
              = ((EmptyString, Some "timeout"), cs1)) by reflexivity.
  split; [exact H|].
  exact (proj1 (proj2 (CachingStoreFacts.error_is_not_cached String.eqb flaky_get
                         "db" _ cs1 _ _ H))).
Defined.

(** A store that always answers the same, asked for three keys. *)
Lemma transparent_over_constant_store_witness :
  (forall st k, fst (constant_get st k) = constant_answer k) /\
  fst (CachingStore.gets String.eqb constant_get ["db"; "missing"; "db"]
         (CachingStore.newCachingStore 0)) =
    [("db-value", None); (EmptyString, Some "not found"); ("db-value", None)].
Proof.
  assert (Hc : forall st k, fst (constant_get st k) = constant_answer k)
    by (intros st k; reflexivity).
  split; [exact Hc|].
  exact (CachingStoreFacts.transparent_over_constant_store String.eqb String.eqb_eq
           constant_get constant_answer 0 ["db"; "missing"; "db"] Hc).
Defined.

(** A comm file that can be read at the third try. *)
Lemma isJavaProcess_first_successful_read_witness :
  2 <= 3 /\ (forall i, i < 2 -> java_comm i = None) /\
  JavaTLS.isJavaProcess drop_line_feeds java_comm = (true, 3).
Proof.
  assert (Hn : forall i, i < 2 -> java_comm i = None).
  { intros i Hi. destruct i as [|[|i]]; [reflexivity|reflexivity|lia]. }
  split; [lia|]. split; [exact Hn|].
  exact (proj1 (JavaTLSFacts.isJavaProcess_first_successful_read drop_line_feeds java_comm)
           2 _ (le_S _ _ (le_n 2)) Hn eq_refl).
Defined.

(** With the allow expression only, a matching command line is allowed. *)
Lemma isAttachmentAllowed_table_witness :
  fst (JavaTLS.isJavaProcess drop_line_feeds java_comm) = true /\
  JavaTLS.isAttachmentAllowed prefix_MatchString drop_line_feeds allow_only java_comm
    (Some (String.append "java" (String Ascii.zero "-jar app.jar"))) = true.
Proof.
  split; [reflexivity|].
  exact (JavaTLSFacts.isAttachmentAllowed_table prefix_MatchString drop_line_feeds
           allow_only java_comm _ eq_refl).
Defined.

(** With the allow expression set, an unreadable command line is rejected. *)
Lemma isAttachmentAllowed_rejections_witness :
  (JavaTLS.javaAgentAllowRegex allow_only <> None \/
   JavaTLS.javaAgentBlockRegex allow_only <> None) /\
  JavaTLS.isAttachmentAllowed prefix_MatchString drop_line_feeds allow_only java_comm None
    = false.
Proof.
  assert (H : JavaTLS.javaAgentAllowRegex allow_only <> None \/
              JavaTLS.javaAgentBlockRegex allow_only <> None)
    by (left; discriminate).
  split; [exact H|].
  exact (proj1 (proj2 (JavaTLSFacts.isAttachmentAllowed_rejections prefix_MatchString
                         drop_line_feeds allow_only java_comm None)) H).
Defined.


(** An allow expression that does not compile. *)
Lemma uncompilable_allow_disables_filter_witness :
  JavaTLS.JavaAgentAllowRegex bad_allow_config <> EmptyString /\
  prefix_Compile (JavaTLS.JavaAgentAllowRegex bad_allow_config) = inr "missing closing )" /\
  JavaTLS.javaAgentAllowRegex
    (snd (fst (JavaTLS.newJavaTLSProgram prefix_Compile slash_Join (fun _ => true)
                 (fun _ => None) bad_allow_config JavaTLS.globals0))) = None.
Proof.
  assert (Hne : JavaTLS.JavaAgentAllowRegex bad_allow_config <> EmptyString)
    by discriminate.
  split; [exact Hne|]. split; [reflexivity|].
  generalize (JavaTLSFacts.uncompilable_allow_disables_filter prefix_MatchString
                prefix_Compile drop_line_feeds slash_Join (fun _ => true) (fun _ => None)
                bad_allow_config JavaTLS.globals0 "missing closing )" java_comm None
                eq_refl eq_refl eq_refl Hne eq_refl eq_refl).
  destruct (JavaTLS.newJavaTLSProgram _ _ _ _ _ _) as [[made g'] logs].
  intros [H _]. exact H.
Defined.

(** Java TLS switched off: the package variables are left as they are. *)
Lemma newJavaTLSProgram_outcome_witness :
  snd (fst (JavaTLS.newJavaTLSProgram prefix_Compile slash_Join (fun _ => false)
              (fun _ => None) bad_allow_config allow_only)) = allow_only.
Proof.
  generalize (JavaTLSFacts.newJavaTLSProgram_outcome prefix_Compile slash_Join
                (fun _ => false) (fun _ => None) bad_allow_config allow_only).
  destruct (JavaTLS.newJavaTLSProgram _ _ _ _ _ _) as [[made g'] logs].
  intros [H _]. exact (proj2 (H eq_refl)).
Defined.

(** Three aggregations on two connections. *)
Lemma GroupByConnection_groups_witness :
  Permutation usm_pass1 usm_pass2 /\
  (Z.of_nat (List.length usm_pass1) < 2 ^ 63)%Z /\
  snd (USM.GroupByConnection Nat.eqb tuple_lookup double "http"
         usm_pass1 usm_pass2 tens) = 0.
Proof.
  assert (HP : Permutation usm_pass1 usm_pass2)
    by exact (Permutation_sym
                (Permutation_cons_append [(11, "GET /a"); (25, "GET /b")] (12, "GET /c"))).
  assert (Hl : (Z.of_nat (List.length usm_pass1) < 2 ^ 63)%Z) by reflexivity.
  split; [exact HP|]. split; [exact Hl|].
  generalize (USMFacts.GroupByConnection_groups Nat.eqb Nat.eqb_eq tuple_lookup double
                tens "http" usm_pass1 usm_pass2 HP Hl).
  destruct (USM.GroupByConnection _ _ _ _ _ _ _) as [bc errors].
  intros [H _]. exact H.
Defined.

(** One connection found out of two: the aggregation of the other is the
    orphan. *)
Lemma Close_reports_unclaimed_witness :
  Permutation usm_pass1 usm_pass2 /\
  (Z.of_nat (List.length usm_pass1) < 2 ^ 63)%Z /\
  snd (USM.Close
         (snd (USM.finds Nat.eqb [conn_of 40000 80 1]
                 (fst (USM.GroupByConnection Nat.eqb tuple_lookup double "http"
                         usm_pass1 usm_pass2 tens))))) = Some 1%Z.
Proof.
  assert (HP : Permutation usm_pass1 usm_pass2)
    by exact (Permutation_sym
                (Permutation_cons_append [(11, "GET /a"); (25, "GET /b")] (12, "GET /c"))).
  assert (Hl : (Z.of_nat (List.length usm_pass1) < 2 ^ 63)%Z) by reflexivity.
  split; [exact HP|]. split; [exact Hl|].
  generalize (USMFacts.Close_reports_unclaimed Nat.eqb Nat.eqb_eq tuple_lookup double
                tens "http" usm_pass1 usm_pass2 [conn_of 40000 80 1] HP Hl).
  cbv zeta.
  destruct (USM.finds Nat.eqb [conn_of 40000 80 1] _) as [found bc1] eqn:Ef.
  assert (Hfound : found = [1]).
  { vm_compute in Ef. injection Ef as <- _. reflexivity. }
  subst found. cbn [snd].
  destruct (USM.Close bc1) as [bc2 report].
  intros [H _]. exact H.
Defined.

(** Data claimed by 40000 -> 80: the opposite end is not a collision,
    another connection is. *)
Lemma claim_is_settled_witness :
  (USM.sport claimed_data <> 0%Z \/ USM.dport claimed_data <> 0%Z) /\
  fst (USM.collisions [conn_of 80 40000 0; conn_of 40001 80 0] claimed_data)
    = [false; true].
Proof.
  assert (H : USM.sport claimed_data <> 0%Z \/ USM.dport claimed_data <> 0%Z)
    by (left; discriminate).
  split; [exact H|].
  rewrite (USMFacts.claim_is_settled claimed_data
             [conn_of 80 40000 0; conn_of 40001 80 0] H).
  reflexivity.
Defined.

(** The first connection to ask records its ports. *)
Lemma first_claim_witness :
  USM.sport (@USM.new_USMConnectionData nat string) = 0%Z /\
  USM.dport (@USM.new_USMConnectionData nat string) = 0%Z /\
  USM.sport (snd (USM.IsPIDCollision (conn_of 40000 80 0)
                    (@USM.new_USMConnectionData nat string)))
    = 40000%Z.
Proof.
  split; [reflexivity|]. split; [reflexivity|].
  generalize (USMFacts.first_claim (@USM.new_USMConnectionData nat string)
                (conn_of 40000 80 0) eq_refl eq_refl).
  destruct (USM.IsPIDCollision _ _) as [first gd1].
  intros [_ [H _]]. exact H.
Defined.
